(** * ONNX model viewer: graph builder, analysis summary and node labels

    A shallow embedding of the pipeline of the repository
    (src/components/ModelViewer.jsx, src/components/RawCanvas.jsx and the
    ONNX parser) together with the properties its specification states.

    Conventions of the embedding:
    - a JavaScript field that may be [undefined] is an [option];
    - a JavaScript [Map] is a [gmap] and a [Set] is a [gset]; the plain
      object that serves as frequency table is the [gmap] of its own
      properties together with what it inherits from [Object.prototype];
    - the mutable locals of the graph builder ([nodes], [edges],
      [nameToId], [processedInputs], [uid]) are threaded through the passes
      as one explicit state record;
    - array indices, sizes and coordinates are natural numbers, rendered in
      decimal when they are spliced into a template string;
    - a string is the sequence of its characters, one [ascii] for each
      code unit of the source string (tensor names, operator types and
      attribute names are ASCII); the two literals of the source that are
      not, the en dash and the multiplication sign, are only ever appended
      and compared;
    - the data handed to a viewer is typed: [graph.nodes] is an array of
      node objects, and a field that is there holds a value of its kind
      (names are strings, [input] and [output] arrays of strings);
    - counters and lengths stay in the range in which JavaScript numbers
      are exact integers. *)

From stdpp Require Import base strings pretty list gmap fin_maps fin_sets.

Open Scope string_scope.
Open Scope list_scope.
Open Scope nat_scope.

(** ** JavaScript values used by the source *)

Module JS.

(** Truthiness of an optional string: [undefined] and the empty string
    are falsy, every other string is truthy. *)
Definition truthy (v : option string) : bool :=
  match v with
  | Some s => negb (String.eqb s "")
  | None => false
  end.

(** [a || b] on optional strings. *)
Definition or (a b : option string) : option string :=
  if truthy a then a else b.

(** [a || d] where the last alternative is a string that is always
    there (a literal or a template string). *)
Definition or_else (a : option string) (d : string) : string :=
  match a with
  | Some s => if String.eqb s "" then d else s
  | None => d
  end.

(** [arr?.[0]]: the first element of an array that may be [undefined];
    [undefined] as well when the array is empty. *)
Definition first (arr : option (list string)) : option string :=
  match arr with
  | Some (x :: _) => Some x
  | _ => None
  end.

(** [s.substring(0, n)]. *)
Definition substring0 (n : nat) (s : string) : string :=
  String.substring 0 n s.

(** [s.includes(needle)]. *)
Fixpoint includes (needle s : string) : bool :=
  String.prefix needle s ||
  match s with
  | EmptyString => false
  | String _ s' => includes needle s'
  end.

(** [arr.join(sep)] on an array whose elements are already strings. *)
Fixpoint join (sep : string) (l : list string) : string :=
  match l with
  | [] => ""
  | [x] => x
  | x :: rest => x +:+ sep +:+ join sep rest
  end.

End JS.

(** ** Data model *)

(** One entry of [node.attribute]: its [name] and its [ints], each of
    which may be missing.  The integers are rendered in decimal when they
    are joined (the decoder hands them over as decimal strings, the demo
    data as numbers). *)
Record Attribute := mkAttribute {
  a_name : option string;
  a_ints : option (list Z)
}.

(** A node of [graph.nodes] as the viewers read it.  Every field may be
    missing from the object; [r_type] and [r_name] are its fields [type]
    and [name]. *)
Record RawNode := mkRawNode {
  opType : option string;
  op_type : option string;
  r_type : option string;
  r_name : option string;
  input : option (list string);
  output : option (list string);
  attribute : option (list Attribute)
}.

(** The React Flow node kinds the builder emits. *)
Inductive FlowKind := KInput | KDefault | KOutput.

Global Instance FlowKind_eq_dec : EqDecision FlowKind.
Proof. solve_decision. Defined.

(** A React Flow node: [{ id, type, position: {x, y}, data: {label} }]. *)
Record FlowNode := mkFlowNode {
  n_id : string;
  n_type : FlowKind;
  n_x : nat;
  n_y : nat;
  n_label : string
}.

(** A React Flow edge: [{ id, source, target, animated }]. *)
Record FlowEdge := mkFlowEdge {
  e_id : string;
  e_source : string;
  e_target : string;
  e_animated : bool
}.

Global Instance FlowNode_eq_dec : EqDecision FlowNode.
Proof. solve_decision. Defined.

Global Instance FlowEdge_eq_dec : EqDecision FlowEdge.
Proof. solve_decision. Defined.

(** ** The graph builder of ModelViewer.jsx *)

(** The locals of the [useMemo] callback.  They are created afresh on
    every run. *)
Record Builder := mkBuilder {
  nodes : list FlowNode;
  edges : list FlowEdge;
  nameToId : gmap string string;
  processedInputs : gset string;
  uid : nat
}.

Definition initial : Builder :=
  {| nodes := []; edges := []; nameToId := ∅; processedInputs := ∅; uid := 1 |}.

(** [getId]: look the name up, allocating [id-<uid>] (and bumping [uid])
    when it has none yet. *)
Definition getId (name : string) (st : Builder) : string * Builder :=
  match nameToId st !! name with
  | Some i => (i, st)
  | None =>
      let i := "id-" +:+ pretty (uid st) in
      (i, {| nodes := nodes st; edges := edges st;
             nameToId := <[name := i]> (nameToId st);
             processedInputs := processedInputs st;
             uid := S (uid st) |})
  end.

Definition push_node (nd : FlowNode) (st : Builder) : Builder :=
  {| nodes := nodes st ++ [nd]; edges := edges st;
     nameToId := nameToId st; processedInputs := processedInputs st;
     uid := uid st |}.

Definition push_edge (e : FlowEdge) (st : Builder) : Builder :=
  {| nodes := nodes st; edges := edges st ++ [e];
     nameToId := nameToId st; processedInputs := processedInputs st;
     uid := uid st |}.

Definition mark_processed (name : string) (st : Builder) : Builder :=
  {| nodes := nodes st; edges := edges st;
     nameToId := nameToId st;
     processedInputs := {[ name ]} ∪ processedInputs st;
     uid := uid st |}.

(** The label of an input node: the tensor name, cut to 20 characters and
    followed by three dots when it is longer than that. *)
Definition input_label (name : string) : string :=
  if 20 <? String.length name
  then JS.substring0 20 name +:+ "..."
  else name.

(** Body of the inner [forEach] of the first pass. *)
Definition pass1_input (name : string) (st : Builder) : Builder :=
  if decide (name ∈ processedInputs st) then st
  else
    let '(inputId, st1) := getId name st in
    let st2 := push_node
      {| n_id := inputId; n_type := KInput;
         n_x := 50; n_y := 50 + size (processedInputs st1) * 100;
         n_label := input_label name |} st1 in
    mark_processed name st2.

(** Body of the outer [forEach] of the first pass. *)
Definition pass1_node (node : RawNode) (st : Builder) : Builder :=
  match input node with
  | Some ins => foldl (λ s i, pass1_input i s) st ins
  | None => st
  end.

Definition pass1 (ns : list RawNode) (st : Builder) : Builder :=
  foldl (λ s n, pass1_node n s) st ns.

(** [node.output?.[0] || node.name || `node-${index}`]. *)
Definition outputName (index : nat) (node : RawNode) : string :=
  JS.or_else (JS.or (JS.first (output node)) (r_name node))
             ("node-" +:+ pretty index).

(** [node.opType || node.op_type || node.type || `Node ${index}`]. *)
Definition opLabel (index : nat) (node : RawNode) : string :=
  JS.or_else (JS.or (JS.or (opType node) (op_type node)) (r_type node))
             ("Node " +:+ pretty index).

(** Body of the inner [forEach] of the second pass. *)
Definition pass2_input (nodeId : string) (name : string) (st : Builder) : Builder :=
  let '(inputId, st1) := getId name st in
  push_edge {| e_id := "e-" +:+ inputId +:+ "-" +:+ nodeId;
               e_source := inputId; e_target := nodeId;
               e_animated := true |} st1.

(** Body of the outer [forEach] of the second pass. *)
Definition pass2_node (index : nat) (node : RawNode) (st : Builder) : Builder :=
  let '(nodeId, st1) := getId (outputName index node) st in
  let st2 := push_node
    {| n_id := nodeId; n_type := KDefault;
       n_x := 300 + (index mod 4) * 200;
       n_y := 100 + (index / 4) * 150;
       n_label := opLabel index node |} st1 in
  match input node with
  | Some ins => foldl (λ s i, pass2_input nodeId i s) st2 ins
  | None => st2
  end.

(** The second pass over the nodes that remain, [index] being the position
    of the first of them. *)
Fixpoint pass2_from (index : nat) (ns : list RawNode) (st : Builder) : Builder :=
  match ns with
  | [] => st
  | n :: rest => pass2_from (S index) rest (pass2_node index n st)
  end.

Definition pass2 (ns : list RawNode) (st : Builder) : Builder :=
  pass2_from 0 ns st.

(** Both passes, from fresh locals. *)
Definition build_state (ns : list RawNode) : Builder :=
  pass2 ns (pass1 ns initial).

(** What the callback returns: [{ nodes, edges }]. *)
Record Graph := mkGraph {
  g_nodes : list FlowNode;
  g_edges : list FlowEdge
}.

Definition buildGraph (ns : list RawNode) : Graph :=
  let st := build_state ns in
  {| g_nodes := nodes st; g_edges := edges st |}.

(** The sample graph shown when there is no node array. *)
Definition sampleGraph : Graph :=
  {| g_nodes :=
       [ {| n_id := "1"; n_type := KInput; n_x := 100; n_y := 100; n_label := "Input" |};
         {| n_id := "2"; n_type := KDefault; n_x := 300; n_y := 100; n_label := "Process" |};
         {| n_id := "3"; n_type := KOutput; n_x := 500; n_y := 100; n_label := "Output" |} ];
     g_edges :=
       [ {| e_id := "e1-2"; e_source := "1"; e_target := "2"; e_animated := true |};
         {| e_id := "e2-3"; e_source := "2"; e_target := "3"; e_animated := true |} ] |}.

(** The whole [useMemo] callback; [None] stands for a [modelData] whose
    [graph.nodes] is missing or not an array. *)
Definition viewerGraph (graphNodes : option (list RawNode)) : Graph :=
  match graphNodes with
  | Some ns => buildGraph ns
  | None => sampleGraph
  end.

(** ** Operator labels of RawCanvas.jsx *)

Definition NODE_WIDTH : nat := 200.
Definition NODE_HEIGHT : nat := 120.
Definition INPUT_NODE_WIDTH : nat := 140.
Definition INPUT_NODE_HEIGHT : nat := 80.
Definition OUTPUT_NODE_WIDTH : nat := 140.
Definition OUTPUT_NODE_HEIGHT : nat := 80.

(** The placeholder of an attribute that is not there (U+2013) and the
    separator of its integers (U+00D7). *)
Definition en_dash : string := "–".
Definition times_sign : string := "×".

(** [attrs.find((a) => a.name === name)]. *)
Definition findAttr (attrs : list Attribute) (name : string) : option Attribute :=
  List.find (λ a, bool_decide (a_name a = Some name)) attrs.

(** The local [getAttrValue] of [getConvDetails]:
    [attr?.ints?.join('×') || '–']. *)
Definition getAttrValue (attrs : list Attribute) (name : string) : string :=
  JS.or_else
    (a ← findAttr attrs name;
     ints ← a_ints a;
     Some (JS.join times_sign (pretty <$> ints)))
    en_dash.

(** [node.input?.find((i) => i.includes(word)) || fallback]. *)
Definition findInput (node : RawNode) (word fallback : string) : string :=
  JS.or_else (ins ← input node; List.find (JS.includes word) ins) fallback.

Definition getConvDetails (node : RawNode) : list string :=
  let attrs := default [] (attribute node) in
  let W := findInput node "weight" "W" in
  let B := findInput node "bias" "B" in
  [ "Weight: " +:+ W;
    "Bias: " +:+ B;
    "Dilations: " +:+ getAttrValue attrs "dilations";
    "Kernel: " +:+ getAttrValue attrs "kernel_shape";
    "Padding: " +:+ getAttrValue attrs "pads";
    "Strides: " +:+ getAttrValue attrs "strides" ].

(** The local [lines] of the [allNodes] callback of [layoutGraph].  A line
    is [None] when the source puts [undefined] there (a node without
    [opType]). *)
Definition nodeLines (node : RawNode) : list (option string) :=
  if bool_decide (opType node = Some "Conv")
  then opType node :: (Some <$> getConvDetails node)
  else [opType node].

(** A child handed to the layout library:
    [{ id, width, height, labels, nodeType }], the labels by their text
    (the [originalNode] of an operator child is the node itself). *)
Record ElkNode := mkElkNode {
  k_id : option string;
  k_width : nat;
  k_height : nat;
  k_labels : list (option string);
  k_nodeType : option string
}.

(** The [allNodes] callback; [None] when [node.output[0]] throws because
    the node has no [output] array. *)
Definition elkOperatorNode (node : RawNode) : option ElkNode :=
  outs ← output node;
  Some {| k_id := head outs; k_width := NODE_WIDTH; k_height := NODE_HEIGHT;
          k_labels := nodeLines node; k_nodeType := opType node |}.

(** The callbacks that turn [graph.inputs] and [graph.outputs] into
    children. *)
Definition elkInputNode (name : option string) : ElkNode :=
  {| k_id := name; k_width := INPUT_NODE_WIDTH; k_height := INPUT_NODE_HEIGHT;
     k_labels := [name]; k_nodeType := Some "Input" |}.

Definition elkOutputNode (name : option string) : ElkNode :=
  {| k_id := name; k_width := OUTPUT_NODE_WIDTH; k_height := OUTPUT_NODE_HEIGHT;
     k_labels := [name]; k_nodeType := Some "Output" |}.

(** An edge handed to the layout library: [{ id, sources, targets }]. *)
Record ElkEdge := mkElkEdge {
  ke_id : string;
  ke_sources : list (option string);
  ke_targets : list (option string)
}.

(** How a template string renders a value that may be [undefined]. *)
Definition render (v : option string) : string := default "undefined" v.

(** The edges pushed for one node: [None] when [node.input.forEach]
    throws (no [input] array) or when the callback reads [node.output[0]]
    of a node without [output] array. *)
Definition elkEdgesOfNode (node : RawNode) : option (list ElkEdge) :=
  match input node with
  | None => None
  | Some [] => Some []
  | Some ins =>
      outs ← output node;
      Some ((λ t, {| ke_id := t +:+ "->" +:+ render (head outs);
                     ke_sources := [Some t];
                     ke_targets := [head outs] |}) <$> ins)
  end.

(** [nodes.find(n => n.output.includes(name))]. *)
Definition producerOf (ns : list RawNode) (name : option string) : option RawNode :=
  List.find (λ n, match name with
                  | Some s => bool_decide (s ∈ default [] (output n))
                  | None => false
                  end) ns.

(** The edge pushed for one declared output, when a node produces it. *)
Definition elkOutputEdges (ns : list RawNode) (name : option string) : list ElkEdge :=
  match producerOf ns name with
  | Some lastNode =>
      let src := head (default [] (output lastNode)) in
      [ {| ke_id := render src +:+ "->" +:+ render name;
           ke_sources := [src]; ke_targets := [name] |} ]
  | None => []
  end.

(** The children and edges [layoutGraph] hands to the layout library, from
    [data.graph.nodes] and the names of the entries of [data.graph.inputs]
    and [data.graph.outputs], two arrays that may be missing; [None] when
    building them throws: in the [allNodes] callback, at
    [data.graph.inputs.map] or [data.graph.outputs.map] on a missing
    array, or while the edges are pushed. *)
Definition layoutInput (ns : list RawNode)
    (ins outs : option (list (option string)))
    : option (list ElkNode * list ElkEdge) :=
  allNodes ← mapM elkOperatorNode ns;
  inputs ← ins;
  outputs ← outs;
  nodeEdges ← mapM elkEdgesOfNode ns;
  Some ((elkInputNode <$> inputs) ++ allNodes ++ (elkOutputNode <$> outputs),
        mjoin nodeEdges ++ (outputs ≫= elkOutputEdges ns)).

(** ** The parser: [parseONNXModelComplete] *)

(** A thrown value, of which the handler reads [message]. *)
Record Error := mkError { message : string }.

(** A computation that either completes with a value or throws. *)
Inductive Completion (A : Type) : Type :=
  | Normal (a : A)
  | Throw (e : Error).
Arguments Normal {A} a.
Arguments Throw {A} e.

Definition bind {A B : Type} (c : Completion A) (k : A → Completion B) : Completion B :=
  match c with
  | Normal a => k a
  | Throw e => Throw e
  end.

Notation "x <- c ;; k" := (bind c (λ x, k))
  (at level 62, c at next level, right associativity).

(** An entry of [graph.input] or [graph.output]: its [name] and its
    [type?.value]. *)
Record ValueInfo := mkValueInfo {
  v_name : option string;
  v_type_value : option string
}.

(** The [graph] of the decoded object; [T] is the type of initializers,
    which the parser hands on untouched. *)
Record GraphProto (T : Type) := mkGraphProto {
  node : option (list RawNode);
  gp_input : option (list ValueInfo);
  gp_output : option (list ValueInfo);
  initializer : option (list T)
}.
Arguments node {T} _.
Arguments gp_input {T} _.
Arguments gp_output {T} _.
Arguments initializer {T} _.

(** What [ModelProto.toObject] returns, as far as the parser reads it. *)
Record ModelObject (T : Type) := mkModelObject {
  producerName : option string;
  producerVersion : option string;
  graph : option (GraphProto T)
}.
Arguments producerName {T} _.
Arguments producerVersion {T} _.
Arguments graph {T} _.

(** The fields of the [File] that the parser reads ([arrayBuffer] is among
    the collaborators below). *)
Record File := mkFile {
  f_name : string;
  f_size : nat
}.

(** [{ name, type }] of the returned [graph.inputs] and [graph.outputs]. *)
Record Port := mkPort {
  p_name : option string;
  p_type : string
}.

(** The functions a plain object inherits from [Object.prototype], by
    the name under which it finds them.  Each is a writable data property
    of the prototype, so that an assignment under its name creates an own
    property of the object. *)
Definition prototypeFunctions : list string :=
  [ "constructor"; "hasOwnProperty"; "isPrototypeOf"; "propertyIsEnumerable";
    "toLocaleString"; "toString"; "valueOf";
    "__defineGetter__"; "__defineSetter__";
    "__lookupGetter__"; "__lookupSetter__" ].

(** A value of the frequency table: a number, or the string that [+ 1]
    makes of the function inherited under the key, which is the text of
    that function (the engine chooses it) followed by [ones] characters
    [1], one for each assignment. *)
Inductive Entry :=
  | Count (n : nat)
  | NativeText (ones : nat).

Global Instance Entry_eq_dec : EqDecision Entry.
Proof. solve_decision. Defined.

Record Analysis := mkAnalysis {
  totalInputs : nat;
  totalOutputs : nat;
  totalNodes : nat;
  totalInitializers : nat;
  modelComplexity : string;
  operatorFrequency : gmap string Entry
}.

(** The two object shapes the parser returns.  [Parsed] is the literal
    ending in [parsingMethod: 'runtime-load'] (its [file.sizeFormatted], a
    floating-point rendering of the size, is left out); [Failed] is
    [{ error, parsingMethod: 'fallback' }]. *)
Inductive ParseResult (T : Type) : Type :=
  | Parsed (file : File)
           (producer : string * string)
           (inputs outputs : list Port)
           (graphNodes : list RawNode)
           (initializers : list T)
           (analysis : Analysis)
  | Failed (error : string).
Arguments Parsed {T}.
Arguments Failed {T}.

Definition parsingMethod {T} (r : ParseResult T) : string :=
  match r with
  | Parsed _ _ _ _ _ _ _ => "runtime-load"
  | Failed _ => "fallback"
  end.

(** The keys of a result object. *)
Definition resultKeys {T} (r : ParseResult T) : list string :=
  match r with
  | Parsed _ _ _ _ _ _ _ => ["file"; "model"; "graph"; "analysis"; "parsingMethod"]
  | Failed _ => ["error"; "parsingMethod"]
  end.

(** [nodes.length > 1000 ? 'High' : nodes.length > 100 ? 'Medium' : 'Low']. *)
Definition complexityOf (count : nat) : string :=
  if 1000 <? count then "High"
  else if 100 <? count then "Medium"
  else "Low".

(** Body of the frequency loop:
    [if (op) operatorFrequency[op] = (operatorFrequency[op] || 0) + 1],
    where [operatorFrequency] is a plain object, given by its own
    properties.
    - Under [__proto__] the read finds the prototype, an object, so that
      the sum is a string, and the write goes to the inherited setter,
      which drops a value that is neither an object nor null: nothing is
      stored.
    - A number that is there is incremented and a string that is there
      gets one more [1].
    - When the object has no own property under [op], the read finds the
      function it inherits under that name, if any, which [+ 1] turns
      into a string; otherwise it is [undefined] and the entry becomes
      1. *)
Definition countOp (freq : gmap string Entry) (n : RawNode) : gmap string Entry :=
  if JS.truthy (opType n)
  then
    let op := default "" (opType n) in
    if bool_decide (op = "__proto__") then freq
    else
      match freq !! op with
      | Some (Count k) => <[op := Count (k + 1)]> freq
      | Some (NativeText k) => <[op := NativeText (k + 1)]> freq
      | None =>
          if bool_decide (op ∈ prototypeFunctions)
          then <[op := NativeText 1]> freq
          else <[op := Count 1]> freq
      end
  else freq.

Definition frequencyOf (ns : list RawNode) : gmap string Entry :=
  foldl countOp ∅ ns.

Definition toPort (v : ValueInfo) : Port :=
  {| p_name := v_name v; p_type := JS.or_else (v_type_value v) "unknown" |}.

(** [arr?.map(v => ({ name: v.name, type: v.type?.value || 'unknown' })) || []]. *)
Definition portsOf (arr : option (list ValueInfo)) : list Port :=
  match arr with
  | Some l => toPort <$> l
  | None => []
  end.

(** [arr?.length || 0]. *)
Definition lengthOr0 {A} (arr : option (list A)) : nat :=
  default 0 (length <$> arr).

Section Parser.

(** The collaborators: the schema loader, the type lookup, the reading
    of the file and the decoder of protobufjs, each of which may throw;
    and the message with which the engine reports a property read on a
    missing [graph]. *)
Context {Root MsgType Message T : Type}.
Variable protobuf_load : Completion Root.
Variable lookupType : Root → Completion MsgType.
Variable arrayBuffer : File → Completion (list Byte.byte).
Variable decode : MsgType → list Byte.byte → Completion Message.
Variable toObject : MsgType → Message → Completion (ModelObject T).
Variable nullReadMessage : string.

(** [model.graph.<field>]: throws a [TypeError] when [graph] is missing. *)
Definition readGraph (model : ModelObject T) : Completion (GraphProto T) :=
  match graph model with
  | Some g => Normal g
  | None => Throw {| message := nullReadMessage |}
  end.

(** [model.graph?.node || []]. *)
Definition graphNodesOf (model : ModelObject T) : list RawNode :=
  match graph model with
  | Some g => default [] (node g)
  | None => []
  end.

(** The body of the [try] block. *)
Definition parseBody (file : File) : Completion (ParseResult T) :=
  root <- protobuf_load ;;
  ModelProto <- lookupType root ;;
  buffer <- arrayBuffer file ;;
  decoded <- decode ModelProto buffer ;;
  model <- toObject ModelProto decoded ;;
  let nodes := graphNodesOf model in
  let operatorFrequency := frequencyOf nodes in
  g <- readGraph model ;;
  Normal (Parsed
    file
    (JS.or_else (producerName model) "Unknown",
     JS.or_else (producerVersion model) "Unknown")
    (portsOf (gp_input g))
    (portsOf (gp_output g))
    nodes
    (default [] (initializer g))
    {| totalInputs := lengthOr0 (gp_input g);
       totalOutputs := lengthOr0 (gp_output g);
       totalNodes := length nodes;
       totalInitializers := lengthOr0 (initializer g);
       modelComplexity := complexityOf (length nodes);
       operatorFrequency := operatorFrequency |}).

(** [try { ... } catch (err) { return { error: err.message,
    parsingMethod: 'fallback' } }]. *)
Definition parseONNXModelComplete (file : File) : ParseResult T :=
  match parseBody file with
  | Normal r => r
  | Throw err => Failed (message err)
  end.

End Parser.

(** ** Vocabulary of the properties *)

(** A value that is there: defined and not the empty string, which is what
    the [||] chains of the source test. *)
Definition present (v : option string) : Prop :=
  ∃ s, v = Some s ∧ s ≠ "".

(** The tensor names a node consumes, as both passes traverse them. *)
Definition inputsOf (n : RawNode) : list string :=
  default [] (input n).

(** All consumed tensor names, in node order then input-list order. *)
Definition consumed (ns : list RawNode) : list string :=
  ns ≫= inputsOf.

(** A node produces every tensor of its [output] list. *)
Definition produces (n : RawNode) (t : string) : Prop :=
  ∃ outs, output n = Some outs ∧ t ∈ outs.

(** The names of [l] that are not yet in [acc], appended to [acc] in the
    order in which they first occur. *)
Definition firstSeen (acc l : list string) : list string :=
  foldl (λ (a : list string) (t : string), if decide (t ∈ a) then a else a ++ [t]) acc l.

(** The distinct consumed names, first come first. *)
Definition distinctInputs (ns : list RawNode) : list string :=
  firstSeen [] (consumed ns).

(** The id recorded for a tensor name in a builder state. *)
Definition idOf (st : Builder) (name : string) : string :=
  default "" (nameToId st !! name).

(** The identifier allocated when the counter stands at [k]. *)
Definition idStr (k : nat) : string := "id-" +:+ pretty k.

(** The node the first pass pushes for the [k]-th distinct consumed name. *)
Definition inputNode (k : nat) (t : string) : FlowNode :=
  {| n_id := idStr (S k); n_type := KInput;
     n_x := 50; n_y := 50 + k * 100; n_label := input_label t |}.

(** The node the second pass pushes for the node at position [i], given
    the final state of the builder. *)
Definition operatorNode (final : Builder) (i : nat) (n : RawNode) : FlowNode :=
  {| n_id := idOf final (outputName i n); n_type := KDefault;
     n_x := 300 + (i mod 4) * 200; n_y := 100 + (i / 4) * 150;
     n_label := opLabel i n |}.

Definition edgeBetween (source target : string) : FlowEdge :=
  {| e_id := "e-" +:+ source +:+ "-" +:+ target;
     e_source := source; e_target := target; e_animated := true |}.

(** The edges the second pass pushes for the node at position [i]. *)
Definition edgesOfNode (final : Builder) (i : nat) (n : RawNode) : list FlowEdge :=
  (λ t, edgeBetween (idOf final t) (idOf final (outputName i n))) <$> inputsOf n.

(** A run of [getId] calls, collecting the ids returned. *)
Fixpoint getIds (names : list string) (st : Builder) : list string * Builder :=
  match names with
  | [] => ([], st)
  | name :: rest =>
      let '(i, st1) := getId name st in
      let '(ids, st2) := getIds rest st1 in
      (i :: ids, st2)
  end.

(** The ids handed out so far are [id-1 .. id-(uid-1)], one per name. *)
Definition wf (st : Builder) : Prop :=
  1 ≤ uid st ∧
  (∀ name i, nameToId st !! name = Some i → ∃ k, i = idStr k ∧ 1 ≤ k < uid st) ∧
  (∀ n1 n2 i, nameToId st !! n1 = Some i → nameToId st !! n2 = Some i → n1 = n2).

(** What the locals look like while the first pass runs, [names] being the
    distinct names it has met so far. *)
Record Pass1State (st : Builder) (names : list string) : Prop := {
  p1_nodup : NoDup names;
  p1_processed : ∀ t, t ∈ processedInputs st ↔ t ∈ names;
  p1_size : size (processedInputs st) = length names;
  p1_map : ∀ t i, nameToId st !! t = Some i ↔
                  ∃ k, names !! k = Some t ∧ i = idStr (S k);
  p1_uid : uid st = S (length names);
  p1_nodes : nodes st = imap inputNode names;
  p1_edges : edges st = []
}.

(** How often [op] is the [opType] of a node. *)
Definition occurrences (op : string) (ns : list RawNode) : nat :=
  length (filter (λ n, opType n = Some op) ns).

(** The names under which a plain object finds a property of
    [Object.prototype]. *)
Definition inheritedNames : list string := "__proto__" :: prototypeFunctions.

(** An operator name that the table counts with a number: it is not
    empty and the object inherits nothing under it. *)
Definition plainName (op : string) : Prop :=
  op ≠ "" ∧ op ∉ inheritedNames.

Global Instance plainName_dec op : Decision (plainName op).
Proof. unfold plainName. apply _. Defined.

(** A node whose [opType] is such a name. *)
Definition plainTyped (n : RawNode) : Prop :=
  from_option plainName False (opType n).

Global Instance plainTyped_dec n : Decision (plainTyped n).
Proof. unfold plainTyped, plainName. destruct (opType n); simpl; apply _. Defined.

(** What the table holds under [op] when [k] nodes carry that [opType]:
    nothing for the empty name, for [__proto__] and for an operator that
    does not occur, a string for the name of an inherited function, the
    number [k] otherwise. *)
Definition entryOf (op : string) (k : nat) : option Entry :=
  if decide (op = "" ∨ op = "__proto__" ∨ k = 0) then None
  else if decide (op ∈ prototypeFunctions) then Some (NativeText k)
  else Some (Count k).

(** The number an entry holds; a string holds none. *)
Definition numberOf (e : Entry) : nat :=
  match e with
  | Count n => n
  | NativeText _ => 0
  end.

(** The sum of the numbers of a frequency table. *)
Definition sumValues (m : gmap string Entry) : nat :=
  map_fold (λ _ v acc, numberOf v + acc) 0 m.

(** The nodes of a given kind, in the order in which they were pushed. *)
Definition nodesOfKind (k : FlowKind) (l : list FlowNode) : list FlowNode :=
  filter (λ nd, n_type nd = k) l.

(** The text of an attribute line of a convolution: the integers joined
    by the multiplication sign when the attribute [key] is there with a
    non-empty [ints], the en dash otherwise. *)
Definition attrText (n : RawNode) (key : string) : string :=
  match findAttr (default [] (attribute n)) key with
  | Some {| a_ints := Some (z :: zs) |} => JS.join times_sign (pretty <$> z :: zs)
  | _ => en_dash
  end.

(** The text of the weight or bias line: the first input whose name
    contains [word], or else the letter [letter]. *)
Definition inputText (n : RawNode) (word letter : string) : string :=
  match List.find (JS.includes word) (inputsOf n) with
  | Some t => t
  | None => letter
  end.

(** The child and the edges [layoutGraph] makes for a node that has both
    its [input] and its [output] array. *)
Definition elkChildOf (n : RawNode) : ElkNode :=
  {| k_id := JS.first (output n); k_width := NODE_WIDTH; k_height := NODE_HEIGHT;
     k_labels := nodeLines n; k_nodeType := opType n |}.

Definition elkEdgesFor (n : RawNode) : list ElkEdge :=
  (λ t, {| ke_id := t +:+ "->" +:+ render (JS.first (output n));
           ke_sources := [Some t];
           ke_targets := [JS.first (output n)] |}) <$> inputsOf n.

(** ** Sample inputs *)

(** The first node of the demo graph of RawCanvas.jsx. *)
Definition demoConv : RawNode :=
  {| opType := Some "Conv"; op_type := None; r_type := None; r_name := None;
     input := Some ["input_tensor"; "conv_weight"; "conv_bias"];
     output := Some ["conv_out"];
     attribute := Some
       [ {| a_name := Some "kernel_shape"; a_ints := Some [3; 3]%Z |};
         {| a_name := Some "strides"; a_ints := Some [1; 1]%Z |};
         {| a_name := Some "pads"; a_ints := Some [1; 1]%Z |};
         {| a_name := Some "dilations"; a_ints := Some [1; 1]%Z |} ] |}.

(** A node that has neither outputs nor a name nor an operator type. *)
Definition bareNode : RawNode :=
  {| opType := None; op_type := None; r_type := None; r_name := Some "";
     input := Some ["x"]; output := Some []; attribute := None |}.

(** A node as the decoder yields it for a node that has a name and an
    input but neither outputs nor an operator type. *)
Definition namedNode : RawNode :=
  {| opType := Some ""; op_type := None; r_type := None;
     r_name := Some "relu_1";
     input := Some ["x"]; output := Some []; attribute := Some [] |}.

(** A hand-made node without [output] array. *)
Definition outputlessNode : RawNode :=
  {| opType := Some "Relu"; op_type := None; r_type := None; r_name := None;
     input := Some ["x"]; output := None; attribute := None |}.

Definition rawNode (op : string) (ins outs : list string) : RawNode :=
  {| opType := Some op; op_type := None; r_type := None; r_name := None;
     input := Some ins; output := Some outs; attribute := None |}.

(** Scenario 1 of the specification. *)
Definition conv1 : RawNode := rawNode "Conv" ["x"; "w"; "b"] ["y"].

(** A chain of two operators. *)
Definition chain : list RawNode :=
  [rawNode "Conv" ["x"] ["y"]; rawNode "Relu" ["y"] ["z"]].

(** An operator with two outputs whose second output is consumed. *)
Definition forked : list RawNode :=
  [rawNode "Split" ["x"] ["a"; "b"]; rawNode "Relu" ["b"] ["c"]].

(** The message of the engine for a property read on [null]. *)
Definition engineMessage : string :=
  "Cannot read properties of null (reading 'input')".

(** Collaborators for the examples: the schema loads, the file can be
    read, and the decoder accepts the buffer and yields [model]. *)
Definition parseDecoded (model : ModelObject unit) : File → ParseResult unit :=
  parseONNXModelComplete (Root := unit) (MsgType := unit) (Message := unit)
    (Normal ()) (λ _, Normal ()) (λ _, Normal []) (λ _ _, Normal ())
    (λ _ _, Normal model) engineMessage.

(** Collaborators whose decoder throws [msg]. *)
Definition parseRejected (msg : string) : File → ParseResult unit :=
  parseONNXModelComplete (Root := unit) (MsgType := unit) (Message := unit)
    (Normal ()) (λ _, Normal ()) (λ _, Normal [])
    (λ _ _, Throw {| message := msg |})
    (λ _ _, Normal {| producerName := None; producerVersion := None;
                      graph := None |}) engineMessage.

(** What the decoder yields for a buffer that holds no [graph] field, the
    empty file for one: scalar fields at their defaults, [graph] null. *)
Definition graphlessModel : ModelObject unit :=
  {| producerName := Some ""; producerVersion := Some ""; graph := None |}.

Definition emptyFile : File := {| f_name := "empty.onnx"; f_size := 0 |}.

(** A node as the decoder yields it: with [defaults] and [arrays] set,
    [name] and [opType] are strings and the three lists are arrays. *)
Definition decodedNode (op : string) (ins outs : list string) : RawNode :=
  {| opType := Some op; op_type := None; r_type := None; r_name := Some "";
     input := Some ins; output := Some outs; attribute := Some [] |}.

(** The decoded model of the given nodes, without declared inputs,
    outputs and initializers. *)
Definition modelOf (ns : list RawNode) : ModelObject unit :=
  {| producerName := Some "pytorch"; producerVersion := Some "2.1";
     graph := Some
       {| node := Some ns;
          gp_input := Some []; gp_output := Some []; initializer := Some [] |} |}.


(** A model of 1500 operator nodes. *)
Definition largeModel : ModelObject unit :=
  modelOf (replicate 1500 (decodedNode "Relu" ["x"] ["x"])).

(** Models whose nodes carry the name of a property of
    [Object.prototype] as their operator type. *)
Definition protoModel : ModelObject unit :=
  modelOf [decodedNode "__proto__" ["x"] ["y"]; decodedNode "__proto__" ["y"] ["z"]].

Definition constructorModel : ModelObject unit :=
  modelOf [decodedNode "constructor" ["x"] ["y"];
           decodedNode "constructor" ["y"] ["z"]].

Definition someFile : File := {| f_name := "model.onnx"; f_size := 4096 |}.

(** ** The rest of the viewers and the application *)

(** The canonical names of the nodes, by position. *)
Definition canonicalNames (ns : list RawNode) : list string :=
  imap outputName ns.

(** Where a React Flow node is put. *)
Definition position (nd : FlowNode) : nat * nat := (n_x nd, n_y nd).

(** The nodes of a list that the table counts with a number. *)
Definition countedNodes (ns : list RawNode) : list RawNode :=
  filter plainTyped ns.

(** The other nodes of the demo graph of RawCanvas.jsx. *)
Definition demoRelu : RawNode :=
  {| opType := Some "ReLU"; op_type := None; r_type := None; r_name := None;
     input := Some ["conv_out"]; output := Some ["relu_out"];
     attribute := None |}.

Definition demoMaxPool : RawNode :=
  {| opType := Some "MaxPool"; op_type := None; r_type := None; r_name := None;
     input := Some ["relu_out"]; output := Some ["pool_out"];
     attribute := Some
       [ {| a_name := Some "kernel_shape"; a_ints := Some [2; 2]%Z |};
         {| a_name := Some "strides"; a_ints := Some [2; 2]%Z |} ] |}.

Definition demoLinear : RawNode :=
  {| opType := Some "Linear"; op_type := None; r_type := None; r_name := None;
     input := Some ["pool_out"; "linear_weight"];
     output := Some ["output_tensor"]; attribute := None |}.

Definition demoNodes : list RawNode :=
  [demoConv; demoRelu; demoMaxPool; demoLinear].

(** [NodeComponent]: where the text of label [i] starts and how tall it
    is ([y={15 + i * 18}], [fontSize={i === 0 ? 16 : 12}]). *)
Definition labelY (i : nat) : nat := 15 + i * 18.
Definition labelFontSize (i : nat) : nat := if i =? 0 then 16 else 12.

(** A label line lies inside a box of the given height. *)
Definition lineFits (height i : nat) : Prop :=
  labelY i + labelFontSize i ≤ height.

(** The state of [App]: [modelData], [isLoading], [error]. *)
Record AppState (T : Type) := mkAppState {
  s_modelData : option (ParseResult T);
  s_isLoading : bool;
  s_error : option string
}.
Arguments mkAppState {T}.
Arguments s_modelData {T} _.
Arguments s_isLoading {T} _.
Arguments s_error {T} _.

Definition initialApp {T} : AppState T :=
  {| s_modelData := None; s_isLoading := false; s_error := None |}.

Definition uploadFailedMessage : string :=
  "Failed to parse the ONNX model. Please make sure the file is valid.".

Section App.

Context {T : Type}.

(** The parser as [handleFileUpload] awaits it: a promise that may
    reject. *)
Variable parse : File → Completion (ParseResult T).

(** [setIsLoading(true); setError(null)]: the state while the parser is
    awaited. *)
Definition uploadStarted (st : AppState T) : AppState T :=
  {| s_modelData := s_modelData st; s_isLoading := true; s_error := None |}.

(** [handleFileUpload]: the state once the handler has run to its end. *)
Definition handleFileUpload (file : File) (st : AppState T) : AppState T :=
  let st1 := uploadStarted st in
  let st2 :=
    match parse file with
    | Normal parsedData =>
        {| s_modelData := Some parsedData; s_isLoading := s_isLoading st1;
           s_error := s_error st1 |}
    | Throw _ =>
        {| s_modelData := s_modelData st1; s_isLoading := s_isLoading st1;
           s_error := Some uploadFailedMessage |}
    end in
  {| s_modelData := s_modelData st2; s_isLoading := false;
     s_error := s_error st2 |}.

End App.

(** [modelData?.graph?.nodes] when it is an array. *)
Definition viewerNodes {T} (modelData : option (ParseResult T))
    : option (list RawNode) :=
  match modelData with
  | Some (Parsed _ _ _ _ ns _ _) => Some ns
  | _ => None
  end.

(** [modelData?.analysis?.operatorFrequency || {}]. *)
Definition viewerFrequency {T} (modelData : option (ParseResult T))
    : gmap string Entry :=
  match modelData with
  | Some (Parsed _ _ _ _ _ _ a) => operatorFrequency a
  | _ => ∅
  end.

(** The numbers of the Graph Summary panel. *)
Record Summary := mkSummary {
  sm_nodes : nat;
  sm_inputs : nat;
  sm_outputs : nat;
  sm_initializers : nat
}.

(** What [ModelViewer] returns: the placeholder asking for an upload, or
    the panels, of which the summary and the frequency table are kept
    ([None] for the table when the panel shows that there is no data). *)
Inductive Rendered :=
  | Placeholder
  | Panels (summary : Summary) (frequency : option (gmap string Entry))
           (flow : Graph).

(** The body of [ModelViewer]; [undefinedReadMessage] is the message of
    the engine for a property read on [undefined], which is what
    [modelData.graph.nodes] is on an object without [graph]. *)
Definition renderViewer {T} (undefinedReadMessage : string)
    (modelData : option (ParseResult T)) : Completion Rendered :=
  let operatorFrequency := viewerFrequency modelData in
  let flow := viewerGraph (viewerNodes modelData) in
  match modelData with
  | None => Normal Placeholder
  | Some (Failed _) => Throw {| message := undefinedReadMessage |}
  | Some (Parsed _ _ ins outs ns inits _) =>
      Normal (Panels
        {| sm_nodes := length ns; sm_inputs := length ins;
           sm_outputs := length outs; sm_initializers := length inits |}
        (if decide (0 < size operatorFrequency) then Some operatorFrequency
         else None)
        flow)
  end.

(** The table holds one id for each value the counter has passed. *)
Definition dense (m : gmap string string) (u : nat) : Prop :=
  u = S (size m) ∧ ∀ k, 1 ≤ k < u → ∃ t, m !! t = Some (idStr k).

(** * Properties *)

(** ** [getId] *)

Lemma getId_known name st i :
  nameToId st !! name = Some i → getId name st = (i, st).
Proof. intros H. unfold getId. by rewrite H. Qed.

Lemma getId_fresh name st :
  nameToId st !! name = None →
  getId name st =
    (idStr (uid st),
     {| nodes := nodes st; edges := edges st;
        nameToId := <[name := idStr (uid st)]> (nameToId st);
        processedInputs := processedInputs st; uid := S (uid st) |}).
Proof. intros H. unfold getId. by rewrite H. Qed.

Lemma getId_nodes name st : nodes (getId name st).2 = nodes st.
Proof. unfold getId. by destruct (nameToId st !! name). Qed.

Lemma getId_edges name st : edges (getId name st).2 = edges st.
Proof. unfold getId. by destruct (nameToId st !! name). Qed.

Lemma getId_processed name st :
  processedInputs (getId name st).2 = processedInputs st.
Proof. unfold getId. by destruct (nameToId st !! name). Qed.

Lemma getId_lookup name st :
  nameToId (getId name st).2 !! name = Some (getId name st).1.
Proof.
  unfold getId. destruct (nameToId st !! name) eqn:E; simpl; [done|].
  by rewrite lookup_insert_eq.
Qed.

Lemma getId_mono name st : nameToId st ⊆ nameToId (getId name st).2.
Proof.
  unfold getId. destruct (nameToId st !! name) eqn:E; simpl; [done|].
  by apply insert_subseteq.
Qed.

Lemma getId_uid name st : uid st ≤ uid (getId name st).2.
Proof. unfold getId. destruct (nameToId st !! name); simpl; lia. Qed.

Lemma idStr_inj k1 k2 : idStr k1 = idStr k2 → k1 = k2.
Proof.
  unfold idStr. intros H. apply (inj (String.app _)) in H.
  by apply (inj pretty) in H.
Qed.

Lemma getId_wf name st : wf st → wf (getId name st).2.
Proof.
  intros (Hpos & Hfmt & Hinj). unfold getId.
  destruct (nameToId st !! name) eqn:E; simpl; [done|].
  split; [simpl; lia|]. split; simpl.
  - intros n i Hl. destruct (decide (name = n)) as [->|Hne].
    + rewrite lookup_insert_eq in Hl. injection Hl as <-.
      exists (uid st). split; [done|lia].
    + rewrite lookup_insert_ne in Hl by done.
      destruct (Hfmt _ _ Hl) as (k & -> & Hk). exists k. split; [done|lia].
  - intros n1 n2 i H1 H2.
    destruct (decide (name = n1)) as [E1|Hne1], (decide (name = n2)) as [E2|Hne2];
      [congruence| | |].
    + subst n1. rewrite lookup_insert_eq in H1. rewrite lookup_insert_ne in H2 by done.
      injection H1 as <-. destruct (Hfmt _ _ H2) as (k & Hk & Hlt).
      apply idStr_inj in Hk. lia.
    + subst n2. rewrite lookup_insert_eq in H2. rewrite lookup_insert_ne in H1 by done.
      injection H2 as <-. destruct (Hfmt _ _ H1) as (k & Hk & Hlt).
      apply idStr_inj in Hk. lia.
    + rewrite !lookup_insert_ne in H1, H2 by done. eauto.
Qed.

(** ** The first pass *)

Lemma firstSeen_app acc l1 l2 :
  firstSeen acc (l1 ++ l2) = firstSeen (firstSeen acc l1) l2.
Proof. unfold firstSeen. by rewrite foldl_app. Qed.

Lemma firstSeen_elem acc l t :
  t ∈ firstSeen acc l ↔ t ∈ acc ∨ t ∈ l.
Proof.
  revert acc. induction l as [|x l IH]; intros acc; simpl.
  - rewrite elem_of_nil. tauto.
  - change (t ∈ firstSeen (if decide (x ∈ acc) then acc else acc ++ [x]) l
            ↔ t ∈ acc ∨ t ∈ x :: l).
    rewrite IH, elem_of_cons. destruct (decide (x ∈ acc)) as [Hx|Hx].
    + split; [tauto|]. intros [?|[->|?]]; auto.
    + rewrite elem_of_app, list_elem_of_singleton. tauto.
Qed.

Lemma initial_Pass1State : Pass1State initial [].
Proof.
  split; simpl; try done.
  - constructor.
  - intros t. rewrite elem_of_nil. set_solver.
  - intros t i. rewrite lookup_empty. split; [done|].
    intros (k & Hk & _). by rewrite lookup_nil in Hk.
Qed.

Lemma pass1_input_Pass1State t st names :
  Pass1State st names →
  Pass1State (pass1_input t st) (firstSeen names [t]).
Proof.
  intros [Hnd Hproc Hsize Hmap Huid Hnodes Hedges].
  unfold pass1_input, firstSeen; simpl.
  destruct (decide (t ∈ processedInputs st)) as [Hin|Hnin].
  { rewrite decide_True by (by apply Hproc). by split. }
  assert (t ∉ names) as Hnot by (by rewrite <- Hproc).
  rewrite decide_False by done.
  assert (nameToId st !! t = None) as Hnone.
  { destruct (nameToId st !! t) as [i|] eqn:E; [|done].
    apply Hmap in E as (k & Hk & _). destruct Hnot.
    by eapply list_elem_of_lookup_2. }
  rewrite (getId_fresh _ _ Hnone). simpl.
  split; simpl.
  - apply NoDup_app. split; [done|]. split; [|apply NoDup_singleton].
    intros x Hx Hx'%list_elem_of_singleton. by subst x.
  - intros x. rewrite elem_of_union, elem_of_singleton, elem_of_app,
      list_elem_of_singleton, Hproc. tauto.
  - rewrite size_union by (by apply disjoint_singleton_l).
    rewrite size_singleton, length_app, Hsize. simpl. lia.
  - intros x i. destruct (decide (t = x)) as [<-|Hne].
    + rewrite lookup_insert_eq. split.
      * intros [= <-]. exists (length names). split; [|by rewrite Huid].
        by rewrite list_lookup_middle.
      * intros (k & Hk & ->). f_equal. rewrite Huid. f_equal. f_equal.
        apply lookup_app_Some in Hk as [Hk|[Hlen Hk]].
        -- destruct Hnot. by eapply list_elem_of_lookup_2.
        -- apply list_lookup_singleton_Some in Hk as [Hk _]. lia.
    + rewrite lookup_insert_ne by done. rewrite Hmap. split.
      * intros (k & Hk & ->). exists k. split; [|done].
        by apply lookup_app_l_Some.
      * intros (k & Hk & ->). exists k. split; [|done].
        apply lookup_app_Some in Hk as [Hk|[Hlen Hk]]; [done|].
        apply list_lookup_singleton_Some in Hk as [_ Hk]. congruence.
  - rewrite length_app. simpl. lia.
  - rewrite Hnodes, imap_app. simpl. unfold inputNode at 3.
    by rewrite Nat.add_0_r, Huid, Hsize.
  - done.
Qed.

Lemma pass1_inputs_Pass1State ins st names :
  Pass1State st names →
  Pass1State (foldl (λ s i, pass1_input i s) st ins) (firstSeen names ins).
Proof.
  revert st names. induction ins as [|t ins IH]; intros st names H; [done|].
  change (firstSeen names (t :: ins)) with (firstSeen (firstSeen names [t]) ins).
  apply (IH (pass1_input t st)). by apply pass1_input_Pass1State.
Qed.

Lemma pass1_node_Pass1State n st names :
  Pass1State st names →
  Pass1State (pass1_node n st) (firstSeen names (inputsOf n)).
Proof.
  intros H. unfold pass1_node, inputsOf. destruct (input n) as [ins|]; simpl.
  - by apply pass1_inputs_Pass1State.
  - done.
Qed.

Lemma pass1_Pass1State ns st names :
  Pass1State st names →
  Pass1State (pass1 ns st) (firstSeen names (consumed ns)).
Proof.
  revert st names. induction ns as [|n ns IH]; intros st names H; [done|].
  unfold consumed. rewrite bind_cons, firstSeen_app.
  apply (IH (pass1_node n st)). by apply pass1_node_Pass1State.
Qed.

Lemma pass1_initial ns :
  Pass1State (pass1 ns initial) (distinctInputs ns).
Proof. apply pass1_Pass1State, initial_Pass1State. Qed.

(** ** The second pass *)

Lemma idOf_lookup st t i : nameToId st !! t = Some i → idOf st t = i.
Proof. unfold idOf. by intros ->. Qed.

Lemma idOf_mono st1 st2 t :
  nameToId st1 ⊆ nameToId st2 → is_Some (nameToId st1 !! t) →
  idOf st2 t = idOf st1 t.
Proof.
  intros Hsub [i Hi]. rewrite (idOf_lookup _ _ _ Hi).
  apply idOf_lookup. by eapply lookup_weaken.
Qed.

Lemma push_node_nodes nd st : nodes (push_node nd st) = nodes st ++ [nd].
Proof. done. Qed.

Lemma push_node_edges nd st : edges (push_node nd st) = edges st.
Proof. done. Qed.

Lemma pass2_input_eq nodeId t st :
  pass2_input nodeId t st =
  push_edge (edgeBetween (getId t st).1 nodeId) (getId t st).2.
Proof. unfold pass2_input. by destruct (getId t st). Qed.

Lemma pass2_inputs_spec nodeId ins st :
  let F := foldl (λ s i, pass2_input nodeId i s) st ins in
  nameToId st ⊆ nameToId F ∧
  nodes F = nodes st ∧
  processedInputs F = processedInputs st ∧
  (∀ t, t ∈ ins → is_Some (nameToId F !! t)) ∧
  edges F = edges st ++ ((λ t, edgeBetween (idOf F t) nodeId) <$> ins).
Proof.
  revert st. induction ins as [|t ins IH]; intros st; simpl.
  { split; [done|]. split; [done|]. split; [done|].
    split; [by intros t ?%elem_of_nil|]. by rewrite app_nil_r. }
  specialize (IH (pass2_input nodeId t st)).
  set (F := foldl _ (pass2_input nodeId t st) ins) in *.
  destruct IH as (Hsub & Hnodes & Hproc & Hdef & Hedges).
  rewrite pass2_input_eq in Hsub, Hnodes, Hproc, Hedges. simpl in *.
  assert (nameToId F !! t = Some (getId t st).1) as Ht.
  { eapply lookup_weaken; [apply getId_lookup|done]. }
  split; [by etrans; [apply getId_mono|]|].
  split; [by rewrite Hnodes, getId_nodes|].
  split; [by rewrite Hproc, getId_processed|].
  split.
  - intros x [->|Hx]%elem_of_cons; [by eexists|by apply Hdef].
  - rewrite Hedges, getId_edges, <- app_assoc. simpl.
    by rewrite (idOf_lookup _ _ _ Ht).
Qed.

Lemma pass2_node_eq i n st :
  pass2_node i n st =
  let nodeId := (getId (outputName i n) st).1 in
  let st2 := push_node
    {| n_id := nodeId; n_type := KDefault;
       n_x := 300 + (i mod 4) * 200; n_y := 100 + (i / 4) * 150;
       n_label := opLabel i n |} (getId (outputName i n) st).2 in
  foldl (λ s t, pass2_input nodeId t s) st2 (inputsOf n).
Proof.
  unfold pass2_node, inputsOf. destruct (getId (outputName i n) st).
  simpl. by destruct (input n).
Qed.

Lemma pass2_node_spec i n st :
  let F := pass2_node i n st in
  nameToId st ⊆ nameToId F ∧
  processedInputs F = processedInputs st ∧
  is_Some (nameToId F !! outputName i n) ∧
  (∀ t, t ∈ inputsOf n → is_Some (nameToId F !! t)) ∧
  nodes F = nodes st ++ [operatorNode F i n] ∧
  edges F = edges st ++ edgesOfNode F i n.
Proof.
  intros F. subst F. rewrite pass2_node_eq. cbv zeta.
  set (g := getId (outputName i n) st).
  set (st2 := push_node _ g.2).
  destruct (pass2_inputs_spec g.1 (inputsOf n) st2)
    as (Hsub & Hnodes & Hproc & Hdef & Hedges).
  set (F := foldl _ st2 (inputsOf n)) in *.
  assert (nameToId F !! outputName i n = Some g.1) as Hout.
  { eapply lookup_weaken; [apply getId_lookup|exact Hsub]. }
  split; [etrans; [apply (getId_mono (outputName i n))|exact Hsub]|].
  split; [rewrite Hproc; apply getId_processed|].
  split; [by eexists|].
  split; [done|].
  split.
  - rewrite Hnodes. unfold st2. rewrite push_node_nodes.
    unfold operatorNode. rewrite (idOf_lookup _ _ _ Hout).
    unfold g. by rewrite getId_nodes.
  - rewrite Hedges. unfold st2. rewrite push_node_edges.
    unfold edgesOfNode. rewrite (idOf_lookup _ _ _ Hout).
    unfold g. by rewrite getId_edges.
Qed.

Lemma operatorNode_mono st1 st2 i n :
  nameToId st1 ⊆ nameToId st2 →
  is_Some (nameToId st1 !! outputName i n) →
  operatorNode st1 i n = operatorNode st2 i n.
Proof.
  intros Hsub Hdef. unfold operatorNode. by rewrite (idOf_mono st1 st2).
Qed.

Lemma edgesOfNode_mono st1 st2 i n :
  nameToId st1 ⊆ nameToId st2 →
  is_Some (nameToId st1 !! outputName i n) →
  (∀ t, t ∈ inputsOf n → is_Some (nameToId st1 !! t)) →
  edgesOfNode st1 i n = edgesOfNode st2 i n.
Proof.
  intros Hsub Hout Hdef. unfold edgesOfNode.
  rewrite (idOf_mono st1 st2) by done.
  apply list_fmap_ext. intros k t Ht.
  rewrite (idOf_mono st1 st2); [done..|].
  apply Hdef. by eapply list_elem_of_lookup_2.
Qed.

Lemma pass2_from_spec k ns st :
  let F := pass2_from k ns st in
  nameToId st ⊆ nameToId F ∧
  processedInputs F = processedInputs st ∧
  nodes F = nodes st ++ imap (λ j, operatorNode F (k + j)) ns ∧
  edges F = edges st ++ mjoin (imap (λ j, edgesOfNode F (k + j)) ns).
Proof.
  revert k st. induction ns as [|n ns IH]; intros k st; simpl.
  { by rewrite !app_nil_r. }
  destruct (pass2_node_spec k n st)
    as (Hsub1 & Hproc1 & Hout1 & Hdef1 & Hnodes1 & Hedges1).
  destruct (IH (S k) (pass2_node k n st)) as (Hsub & Hproc & Hnodes & Hedges).
  set (F := pass2_from (S k) ns (pass2_node k n st)) in *.
  split; [by etrans|]. split; [congruence|]. split.
  - rewrite Hnodes, Hnodes1, <- app_assoc. simpl. f_equal.
    rewrite Nat.add_0_r. f_equal; [by apply operatorNode_mono|].
    apply imap_ext. intros j x _. simpl. by rewrite Nat.add_succ_r.
  - rewrite Hedges, Hedges1, <- app_assoc. f_equal.
    rewrite Nat.add_0_r. f_equal; [by apply edgesOfNode_mono|].
    f_equal. apply imap_ext. intros j x _. simpl. by rewrite Nat.add_succ_r.
Qed.

(** The closed form of the state after both passes. *)
Lemma build_state_spec ns :
  let F := build_state ns in
  nameToId (pass1 ns initial) ⊆ nameToId F ∧
  nodes F = imap inputNode (distinctInputs ns) ++ imap (operatorNode F) ns ∧
  edges F = mjoin (imap (edgesOfNode F) ns).
Proof.
  destruct (pass2_from_spec 0 ns (pass1 ns initial))
    as (Hsub & _ & Hnodes & Hedges).
  destruct (pass1_initial ns) as [_ _ _ _ _ Hn He].
  simpl. unfold build_state, pass2.
  split; [done|]. split.
  - by rewrite Hnodes, Hn.
  - by rewrite Hedges, He.
Qed.

(** ** Consequences for the built graph *)

Lemma distinctInputs_elem ns t : t ∈ distinctInputs ns ↔ t ∈ consumed ns.
Proof.
  unfold distinctInputs. rewrite firstSeen_elem, elem_of_nil. tauto.
Qed.

Lemma consumed_elem ns t :
  t ∈ consumed ns ↔ ∃ n, t ∈ inputsOf n ∧ n ∈ ns.
Proof. unfold consumed. apply list_elem_of_bind. Qed.

(** Every consumed name keeps, to the end, the id the first pass gave it,
    which is the id of the input node pushed for it. *)
Lemma consumed_id ns t :
  t ∈ consumed ns →
  ∃ k, distinctInputs ns !! k = Some t ∧
       nameToId (build_state ns) !! t = Some (idStr (S k)).
Proof.
  intros Ht. apply distinctInputs_elem, list_elem_of_lookup_1 in Ht as [k Hk].
  exists k. split; [done|].
  destruct (build_state_spec ns) as (Hsub & _ & _).
  eapply lookup_weaken; [|exact Hsub].
  apply (p1_map _ _ (pass1_initial ns)). eauto.
Qed.

Lemma elem_of_edges ns e :
  e ∈ edges (build_state ns) ↔
  ∃ i n t, ns !! i = Some n ∧ t ∈ inputsOf n ∧
           e = edgeBetween (idOf (build_state ns) t)
                           (idOf (build_state ns) (outputName i n)).
Proof.
  destruct (build_state_spec ns) as (_ & _ & ->).
  rewrite list_elem_of_join. split.
  - intros (l & He & Hl). apply elem_of_lookup_imap in Hl as (i & n & -> & Hn).
    apply list_elem_of_fmap in He as (t & -> & Ht). eauto 10.
  - intros (i & n & t & Hn & Ht & ->). exists (edgesOfNode (build_state ns) i n).
    split; [|by eapply elem_of_lookup_imap_2].
    unfold edgesOfNode. apply list_elem_of_fmap. eauto.
Qed.

Lemma operatorNode_elem ns i n :
  ns !! i = Some n →
  nodes (build_state ns) !! (length (distinctInputs ns) + i)
    = Some (operatorNode (build_state ns) i n).
Proof.
  intros Hn. destruct (build_state_spec ns) as (_ & -> & _).
  rewrite lookup_app_r by (rewrite length_imap; lia).
  rewrite length_imap, Nat.add_comm, Nat.add_sub.
  by rewrite list_lookup_imap, Hn.
Qed.

Lemma inputNode_elem ns k t :
  distinctInputs ns !! k = Some t →
  nodes (build_state ns) !! k = Some (inputNode k t).
Proof.
  intros Hk. destruct (build_state_spec ns) as (_ & -> & _).
  apply lookup_app_l_Some. by rewrite list_lookup_imap, Hk.
Qed.

(** After both passes the canonical name of every node has an id. *)
Lemma pass2_from_defined k ns st j n :
  ns !! j = Some n →
  is_Some (nameToId (pass2_from k ns st) !! outputName (k + j) n).
Proof.
  revert k st j. induction ns as [|m ns IH]; intros k st j Hn; [done|].
  destruct j as [|j]; simpl in *.
  - injection Hn as ->. rewrite Nat.add_0_r.
    destruct (pass2_node_spec k n st) as (_ & _ & [x Hx] & _).
    destruct (pass2_from_spec (S k) ns (pass2_node k n st)) as (Hsub & _).
    exists x. by eapply lookup_weaken.
  - rewrite Nat.add_succ_r. by apply (IH (S k)).
Qed.

Lemma build_state_defined ns i n :
  ns !! i = Some n →
  is_Some (nameToId (build_state ns) !! outputName i n).
Proof. apply (pass2_from_defined 0). Qed.

(** C3.  Every edge the builder of ModelViewer.jsx returns (also in the
    sample graph it falls back to) has its source id and its target id
    among the ids of the returned nodes. *)
Theorem edges_have_endpoints (graphNodes : option (list RawNode)) (e : FlowEdge) :
  e ∈ g_edges (viewerGraph graphNodes) →
  e_source e ∈ n_id <$> g_nodes (viewerGraph graphNodes) ∧
  e_target e ∈ n_id <$> g_nodes (viewerGraph graphNodes).
Proof.
  destruct graphNodes as [ns|]; simpl.
  - intros (i & n & t & Hn & Ht & ->)%elem_of_edges. simpl. split.
    + destruct (consumed_id ns t) as (k & Hk & Hid).
      { apply consumed_elem. exists n. split; [done|].
        by eapply list_elem_of_lookup_2. }
      rewrite (idOf_lookup _ _ _ Hid).
      apply (list_elem_of_fmap_2' n_id _ (inputNode k t)); [|done].
      eapply list_elem_of_lookup_2. by apply inputNode_elem.
    + apply (list_elem_of_fmap_2' n_id _ (operatorNode (build_state ns) i n)); [|done].
      eapply list_elem_of_lookup_2. by apply operatorNode_elem.
  - intros He. repeat (apply elem_of_cons in He as [->|He]); simpl.
    + split; [apply list_elem_of_here|apply list_elem_of_further, list_elem_of_here].
    + split; [apply list_elem_of_further, list_elem_of_here|].
      do 2 apply list_elem_of_further. apply list_elem_of_here.
    + by apply elem_of_nil in He.
Qed.

Lemma edges_have_endpoints_witness :
  edgeBetween "id-1" "id-4" ∈ g_edges (viewerGraph (Some [conv1])) ∧
  "id-1" ∈ n_id <$> g_nodes (viewerGraph (Some [conv1])) ∧
  "id-4" ∈ n_id <$> g_nodes (viewerGraph (Some [conv1])).
Proof.
  assert (edgeBetween "id-1" "id-4" ∈ g_edges (viewerGraph (Some [conv1]))) as H.
  { apply list_elem_of_here. }
  split; [exact H|].
  exact (edges_have_endpoints (Some [conv1]) (edgeBetween "id-1" "id-4") H).
Defined.

(** ** Identity of tensor names *)

Lemma initial_wf : wf initial.
Proof.
  split; [simpl; lia|]. split; simpl.
  - intros name i H. by rewrite lookup_empty in H.
  - intros n1 n2 i H. by rewrite lookup_empty in H.
Qed.

Lemma wf_ext st1 st2 :
  nameToId st1 = nameToId st2 → uid st1 = uid st2 → wf st1 → wf st2.
Proof. unfold wf. by intros -> ->. Qed.

Lemma getIds_cons name rest st :
  getIds (name :: rest) st =
  ((getId name st).1 :: (getIds rest (getId name st).2).1,
   (getIds rest (getId name st).2).2).
Proof.
  simpl. destruct (getId name st) as [i st1]. simpl.
  by destruct (getIds rest st1).
Qed.

Lemma getIds_spec names st :
  wf st →
  wf (getIds names st).2 ∧
  nameToId st ⊆ nameToId (getIds names st).2 ∧
  uid st ≤ uid (getIds names st).2 ∧
  ∀ i n, names !! i = Some n →
         ∃ id, (getIds names st).1 !! i = Some id ∧
               nameToId (getIds names st).2 !! n = Some id.
Proof.
  revert st. induction names as [|name rest IH]; intros st Hwf.
  { simpl. split; [done|]. split; [done|]. split; [done|].
    intros i n Hn. by rewrite lookup_nil in Hn. }
  rewrite getIds_cons. simpl.
  destruct (IH (getId name st).2) as (Hwf' & Hsub & Huid & Hids).
  { by apply getId_wf. }
  split; [done|].
  split; [by etrans; [apply (getId_mono name)|]|].
  split; [by etrans; [apply (getId_uid name)|]|].
  intros [|i] n Hn; simpl in *.
  - injection Hn as ->. eexists. split; [done|].
    eapply lookup_weaken; [apply getId_lookup|done].
  - by apply Hids.
Qed.

(** The locals stay well formed throughout both passes. *)
Lemma pass1_wf ns st : wf st → wf (pass1 ns st).
Proof.
  revert st. induction ns as [|n ns IH]; intros st Hwf; [done|].
  apply (IH (pass1_node n st)). unfold pass1_node.
  destruct (input n) as [ins|]; [|done].
  clear IH. revert st Hwf. induction ins as [|t ins IH]; intros st Hwf; [done|].
  apply (IH (pass1_input t st)). unfold pass1_input.
  destruct (decide _); [done|].
  pose proof (getId_wf t st Hwf) as H. by destruct (getId t st).
Qed.

Lemma pass2_wf k ns st : wf st → wf (pass2_from k ns st).
Proof.
  revert k st. induction ns as [|n ns IH]; intros k st Hwf; [done|].
  apply (IH (S k) (pass2_node k n st)). rewrite pass2_node_eq. cbv zeta.
  set (nodeId := (getId (outputName k n) st).1).
  set (st2 := push_node _ _).
  assert (wf st2) as Hwf2 by (by apply (getId_wf (outputName k n))).
  clearbody st2 nodeId. clear IH.
  revert st2 Hwf2. induction (inputsOf n) as [|t ins IH]; intros st2 Hwf2; [done|].
  apply (IH (pass2_input nodeId t st2)). rewrite pass2_input_eq.
  by apply (getId_wf t).
Qed.

Lemma build_state_wf ns : wf (build_state ns).
Proof. apply pass2_wf, pass1_wf, initial_wf. Qed.

(** C4.  In any run of [getId] calls on fresh locals, two calls return the
    same id exactly when they ask for the same name: asking again for a
    name gives the id it got first (and leaves the locals as they are),
    and distinct names never share an id.  Each id is [id-k] for the value
    [k] the counter had when the name was first met, and the counter never
    goes down.  In the state the builder ends in, likewise, two tensor
    names with the same id are the same name. *)
Theorem getId_idempotent_injective
    (names : list string) (i j : nat) (n1 n2 : string) :
  names !! i = Some n1 →
  names !! j = Some n2 →
  let ids := (getIds names initial).1 in
  let final := (getIds names initial).2 in
  ∃ id1 id2,
    ids !! i = Some id1 ∧ ids !! j = Some id2 ∧
    (id1 = id2 ↔ n1 = n2) ∧
    getId n1 final = (id1, final) ∧
    (∃ k, id1 = "id-" +:+ pretty k ∧ 1 ≤ k < uid final) ∧
    (∀ name st, uid st ≤ uid (getId name st).2) ∧
    (∀ name st, getId name (getId name st).2 = getId name st) ∧
    (∀ ns t1 t2 id,
       nameToId (build_state ns) !! t1 = Some id →
       nameToId (build_state ns) !! t2 = Some id → t1 = t2).
Proof.
  intros H1 H2 ids final.
  destruct (getIds_spec names initial initial_wf) as (Hwf & _ & _ & Hids).
  destruct (Hids _ _ H1) as (id1 & Hi1 & Hm1).
  destruct (Hids _ _ H2) as (id2 & Hi2 & Hm2).
  exists id1, id2. split; [done|]. split; [done|].
  destruct Hwf as (_ & Hfmt & Hinj).
  split; [|split; [|split; [|split; [|split]]]].
  - split.
    + intros ->. by eapply Hinj.
    + intros ->. unfold final in *. congruence.
  - by apply getId_known.
  - by apply (Hfmt n1).
  - apply getId_uid.
  - intros name st. rewrite (getId_known name _ _ (getId_lookup name st)).
    by destruct (getId name st).
  - intros ns t1 t2 id. apply (build_state_wf ns).
Qed.

Lemma getId_idempotent_injective_witness :
  ["x"; "w"; "x"] !! 0 = Some "x" ∧ ["x"; "w"; "x"] !! 2 = Some "x" ∧
  ∃ id1 id2,
    (getIds ["x"; "w"; "x"] initial).1 !! 0 = Some id1 ∧
    (getIds ["x"; "w"; "x"] initial).1 !! 2 = Some id2 ∧
    (id1 = id2 ↔ "x" = "x").
Proof.
  split; [reflexivity|]. split; [reflexivity|].
  destruct (getId_idempotent_injective ["x"; "w"; "x"] 0 2 "x" "x"
              eq_refl eq_refl) as (id1 & id2 & H1 & H2 & H3 & _).
  exists id1, id2. split; [exact H1|]. split; [exact H2|exact H3].
Defined.

(** ** Input nodes and operator nodes *)

Lemma filter_imap_all {A B} (P : B → Prop) `{!∀ x, Decision (P x)}
    (f : nat → A → B) (l : list A) :
  (∀ i x, P (f i x)) → filter P (imap f l) = imap f l.
Proof.
  revert f. induction l as [|x l IH]; intros f HP; [done|].
  rewrite imap_cons, filter_cons_True by done. f_equal.
  apply IH. intros i y. apply HP.
Qed.

Lemma filter_imap_none {A B} (P : B → Prop) `{!∀ x, Decision (P x)}
    (f : nat → A → B) (l : list A) :
  (∀ i x, ¬ P (f i x)) → filter P (imap f l) = [].
Proof.
  revert f. induction l as [|x l IH]; intros f HP; [done|].
  rewrite imap_cons, filter_cons_False by done.
  apply IH. intros i y. apply HP.
Qed.

Lemma input_nodes ns :
  nodesOfKind KInput (g_nodes (buildGraph ns)) = imap inputNode (distinctInputs ns).
Proof.
  unfold nodesOfKind, buildGraph. simpl.
  destruct (build_state_spec ns) as (_ & -> & _).
  rewrite filter_app, filter_imap_all, filter_imap_none by done.
  by rewrite app_nil_r.
Qed.

Lemma operator_nodes ns :
  nodesOfKind KDefault (g_nodes (buildGraph ns))
  = imap (operatorNode (build_state ns)) ns.
Proof.
  unfold nodesOfKind, buildGraph. simpl.
  destruct (build_state_spec ns) as (_ & -> & _).
  by rewrite filter_app, filter_imap_none, filter_imap_all by done.
Qed.

(** C2, as the code has it.  The input nodes of the built graph are the
    distinct consumed tensor names, one node each and in the order in
    which the names are first consumed, whether or not an operator also
    produces the name: every input node carries the id and the label of a
    consumed name, and every consumed name has its input node.  For the
    one-node model of scenario 1 the graph has the three input nodes
    [x], [w], [b], one operator node, and the edges [x->y], [w->y],
    [b->y]. *)
Theorem input_nodes_are_consumed_names (ns : list RawNode) :
  nodesOfKind KInput (g_nodes (buildGraph ns)) = imap inputNode (distinctInputs ns) ∧
  NoDup (distinctInputs ns) ∧
  (∀ nd, nd ∈ g_nodes (buildGraph ns) → n_type nd = KInput →
     ∃ t, t ∈ consumed ns ∧
          nameToId (build_state ns) !! t = Some (n_id nd) ∧
          n_label nd = input_label t) ∧
  (∀ t, t ∈ consumed ns →
     ∃ nd, nd ∈ g_nodes (buildGraph ns) ∧ n_type nd = KInput ∧
           nameToId (build_state ns) !! t = Some (n_id nd)) ∧
  let F := build_state [conv1] in
  n_label <$> nodesOfKind KInput (g_nodes (buildGraph [conv1])) = ["x"; "w"; "b"] ∧
  n_label <$> nodesOfKind KDefault (g_nodes (buildGraph [conv1])) = ["Conv"] ∧
  length (g_nodes (buildGraph [conv1])) = 4 ∧
  g_edges (buildGraph [conv1])
  = [ edgeBetween (idOf F "x") (idOf F "y");
      edgeBetween (idOf F "w") (idOf F "y");
      edgeBetween (idOf F "b") (idOf F "y") ].
Proof.
  split; [apply input_nodes|].
  split; [apply (p1_nodup _ _ (pass1_initial ns))|].
  split; [|split].
  - intros nd Hnd Hk.
    assert (nd ∈ nodesOfKind KInput (g_nodes (buildGraph ns))) as Hin.
    { by apply list_elem_of_filter. }
    rewrite input_nodes in Hin.
    apply elem_of_lookup_imap in Hin as (k & t & -> & Hk').
    exists t. assert (t ∈ consumed ns) as Ht.
    { apply distinctInputs_elem. by eapply list_elem_of_lookup_2. }
    split; [done|]. split; [|done].
    destruct (consumed_id ns t Ht) as (k2 & Hk2 & Hid).
    rewrite Hid. simpl. do 3 f_equal.
    eapply NoDup_lookup; [apply (p1_nodup _ _ (pass1_initial ns))|done..].
  - intros t Ht. destruct (consumed_id ns t Ht) as (k & Hk & Hid).
    exists (inputNode k t). split; [|done].
    eapply list_elem_of_lookup_2. by apply inputNode_elem.
  - by vm_compute.
Qed.

Lemma input_nodes_are_consumed_names_witness :
  "y" ∈ consumed chain ∧
  ∃ nd, nd ∈ g_nodes (buildGraph chain) ∧ n_type nd = KInput ∧
        nameToId (build_state chain) !! "y" = Some (n_id nd).
Proof.
  assert ("y" ∈ consumed chain) as H.
  { apply list_elem_of_further, list_elem_of_here. }
  split; [exact H|].
  exact (proj1 (proj2 (proj2 (proj2 (input_nodes_are_consumed_names chain))))
           "y" H).
Defined.

(** C2 as the specification words it fails on a chain: [y] is
    produced by the first operator and still gets an input node. *)
Lemma input_node_of_produced_tensor :
  let nd := {| n_id := "id-2"; n_type := KInput; n_x := 50; n_y := 150;
               n_label := "y" |} in
  nd ∈ g_nodes (buildGraph chain) ∧
  nameToId (build_state chain) !! "y" = Some (n_id nd) ∧
  rawNode "Conv" ["x"] ["y"] ∈ chain ∧
  produces (rawNode "Conv" ["x"] ["y"]) "y" ∧
  n_id <$> g_nodes (buildGraph chain) = ["id-1"; "id-2"; "id-2"; "id-3"] ∧
  n_type <$> g_nodes (buildGraph chain) = [KInput; KInput; KDefault; KDefault].
Proof.
  split; [apply list_elem_of_further, list_elem_of_here|].
  split; [done|].
  split; [apply list_elem_of_here|].
  split; [|done].
  exists ["y"]. split; [done|apply list_elem_of_here].
Qed.

(** ** Canonical names and operator labels *)

Lemma or_else_nonempty a d : d ≠ "" → JS.or_else a d ≠ "".
Proof.
  intros Hd. unfold JS.or_else. destruct a as [s|]; [|done].
  by destruct (String.eqb_spec s "").
Qed.

Lemma truthy_present v : JS.truthy v = true ↔ present v.
Proof.
  unfold JS.truthy, present. destruct v as [s|].
  - destruct (String.eqb_spec s ""); simpl; split.
    + done.
    + intros (s' & [= <-] & Hne). done.
    + intros _. eauto.
    + done.
  - split; [done|]. by intros (s & ? & _).
Qed.

Lemma or_present a b s : a = Some s → s ≠ "" → JS.or a b = Some s.
Proof.
  intros -> Hs. unfold JS.or. simpl. by destruct (String.eqb_spec s "").
Qed.

Lemma or_absent a b : ¬ present a → JS.or a b = b.
Proof.
  intros Ha. unfold JS.or. destruct (JS.truthy a) eqn:E; [|done].
  by apply truthy_present in E.
Qed.

Lemma or_else_present a d s : a = Some s → s ≠ "" → JS.or_else a d = s.
Proof. intros -> Hs. simpl. by destruct (String.eqb_spec s ""). Qed.

Lemma or_else_absent a d : ¬ present a → JS.or_else a d = d.
Proof.
  intros Ha. unfold JS.or_else. destruct a as [s|]; [|done].
  destruct (String.eqb_spec s ""); [done|]. destruct Ha. by exists s.
Qed.

(** C5, as the code has it.  In the builder of ModelViewer.jsx the
    canonical name of the node at position [i] is its first output when
    that is there, else its [name] when that is there, else [node-<i>];
    its label is [opType], else [op_type], else [type], else [Node <i>],
    each taken when it is there (defined and not empty).  Both are always
    defined and never empty, also for a node whose [output] list is empty
    or missing, and they are the name under which the second pass
    registers the node and the label of the operator node it pushes.
    [layoutGraph] of RawCanvas.jsx has no such chain: building the child
    of a node throws exactly when the node has no [output] array;
    otherwise the id of the child is the first output as it is and its
    first line and node type are the [opType] as it is.  So the id is the
    canonical name exactly when the first output is there, and the node
    type is the label exactly when the [opType] is there. *)
Theorem canonical_name_and_label (i : nat) (n : RawNode) :
  (∀ s, JS.first (output n) = Some s → s ≠ "" → outputName i n = s) ∧
  (¬ present (JS.first (output n)) →
     ∀ s, r_name n = Some s → s ≠ "" → outputName i n = s) ∧
  (¬ present (JS.first (output n)) → ¬ present (r_name n) →
     outputName i n = "node-" +:+ pretty i) ∧
  (∀ s, opType n = Some s → s ≠ "" → opLabel i n = s) ∧
  (¬ present (opType n) →
     ∀ s, op_type n = Some s → s ≠ "" → opLabel i n = s) ∧
  (¬ present (opType n) → ¬ present (op_type n) →
     ∀ s, r_type n = Some s → s ≠ "" → opLabel i n = s) ∧
  (¬ present (opType n) → ¬ present (op_type n) → ¬ present (r_type n) →
     opLabel i n = "Node " +:+ pretty i) ∧
  (output n = Some [] ∨ output n = None →
     outputName i n = JS.or_else (r_name n) ("node-" +:+ pretty i)) ∧
  outputName i n ≠ "" ∧ opLabel i n ≠ "" ∧
  (∀ ns, ns !! i = Some n →
     ∃ nd, nd ∈ g_nodes (buildGraph ns) ∧ n_type nd = KDefault ∧
           n_label nd = opLabel i n ∧
           nameToId (build_state ns) !! outputName i n = Some (n_id nd)) ∧
  (elkOperatorNode n = None ↔ output n = None) ∧
  (∀ e, elkOperatorNode n = Some e →
     k_id e = JS.first (output n) ∧
     k_labels e !! 0 = Some (opType n) ∧
     k_nodeType e = opType n ∧
     (k_id e = Some (outputName i n) ↔ present (JS.first (output n))) ∧
     (k_nodeType e = Some (opLabel i n) ↔ present (opType n))).
Proof.
  assert (outputName i n ≠ "") as Hname by (by apply or_else_nonempty).
  assert (opLabel i n ≠ "") as Hlabel by (by apply or_else_nonempty).
  assert (∀ s, JS.first (output n) = Some s → s ≠ "" → outputName i n = s)
    as Hfirst.
  { intros s Hs Hne. unfold outputName.
    by rewrite (or_present _ _ s), (or_else_present _ _ s). }
  assert (∀ s, opType n = Some s → s ≠ "" → opLabel i n = s) as Hop.
  { intros s Hs Hne. unfold opLabel.
    by rewrite (or_present (opType n) _ s), (or_present _ _ s),
      (or_else_present _ _ s). }
  repeat match goal with |- _ ∧ _ => split end.
  - exact Hfirst.
  - intros Ho s Hs Hne. unfold outputName.
    by rewrite or_absent, (or_else_present _ _ s).
  - intros Ho Hn. unfold outputName. by rewrite or_absent, or_else_absent.
  - exact Hop.
  - intros H1 s Hs Hne. unfold opLabel.
    by rewrite (or_absent (opType n)), (or_present _ _ s),
      (or_else_present _ _ s).
  - intros H1 H2 s Hs Hne. unfold opLabel.
    by rewrite (or_absent (opType n)), (or_absent (op_type n)),
      (or_else_present _ _ s).
  - intros H1 H2 H3. unfold opLabel.
    by rewrite (or_absent (opType n)), (or_absent (op_type n)), or_else_absent.
  - unfold outputName.
    intros [-> | ->]; by rewrite or_absent by (by intros (s & ? & _)).
  - exact Hname.
  - exact Hlabel.
  - intros ns Hn. exists (operatorNode (build_state ns) i n).
    split; [eapply list_elem_of_lookup_2; by apply operatorNode_elem|].
    split; [done|]. split; [done|].
    unfold operatorNode, idOf. simpl.
    destruct (build_state_defined ns i n Hn) as [x ->]. done.
  - unfold elkOperatorNode. by destruct (output n).
  - intros e. unfold elkOperatorNode.
    destruct (output n) as [outs|] eqn:Hout; [|done]. simpl.
    intros [= <-]. cbn [k_id k_labels k_nodeType].
    assert (head outs = JS.first (Some outs)) as -> by (by destruct outs).
    split; [done|]. split.
    { unfold nodeLines. by destruct (bool_decide _). }
    split; [done|]. split; split.
    + intros H. exists (outputName i n). done.
    + intros (s & Hs & Hne). by rewrite (Hfirst s).
    + intros H. exists (opLabel i n). done.
    + intros (s & Hs & Hne). by rewrite (Hop s).
Qed.

Lemma canonical_name_and_label_witness :
  (JS.first (output conv1) = Some "y" ∧ "y" ≠ "" ∧ outputName 0 conv1 = "y") ∧
  (¬ present (JS.first (output bareNode)) ∧ ¬ present (r_name bareNode) ∧
   outputName 3 bareNode = "node-3") ∧
  (¬ present (opType bareNode) ∧ ¬ present (op_type bareNode) ∧
   ¬ present (r_type bareNode) ∧ opLabel 3 bareNode = "Node 3") ∧
  (elkOperatorNode conv1 = Some (elkChildOf conv1) ∧
   k_id (elkChildOf conv1) = Some (outputName 0 conv1) ∧
   k_nodeType (elkChildOf conv1) = Some (opLabel 0 conv1)).
Proof.
  assert ("y" ≠ "") as Hy by discriminate.
  assert ("Conv" ≠ "") as Hc by discriminate.
  assert (¬ present (None : option string)) as Hnone.
  { intros (s & Hs & _). discriminate Hs. }
  assert (¬ present (Some "")) as Hempty.
  { intros (s & Hs & Hne). injection Hs as <-. by apply Hne. }
  split; [|split; [|split]].
  - split; [reflexivity|]. split; [exact Hy|].
    exact (proj1 (canonical_name_and_label 0 conv1) "y" eq_refl Hy).
  - split; [exact Hnone|]. split; [exact Hempty|].
    exact (proj1 (proj2 (proj2 (canonical_name_and_label 3 bareNode)))
             Hnone Hempty).
  - do 3 (split; [exact Hnone|]).
    exact (proj1 (proj2 (proj2 (proj2 (proj2 (proj2 (proj2
             (canonical_name_and_label 3 bareNode)))))))
             Hnone Hnone Hnone).
  - split; [reflexivity|].
    destruct (proj2 (proj2 (proj2 (proj2 (proj2 (proj2 (proj2 (proj2 (proj2
               (proj2 (proj2 (proj2
                 (canonical_name_and_label 0 conv1))))))))))))
               (elkChildOf conv1) eq_refl) as (_ & _ & _ & Hid & Hty).
    split.
    + apply Hid. exists "y". split; [reflexivity|exact Hy].
    + apply Hty. exists "Conv". split; [reflexivity|exact Hc].
Defined.

(** C5 as it is worded fails for [layoutGraph].  A decoded node that has
    a name but neither outputs nor an operator type is [relu_1] with the
    label [Node 0] in ModelViewer.jsx, and a child without id whose only
    line is empty in [layoutGraph]; and for a node without [output] array
    [layoutGraph] throws where ModelViewer.jsx names the node
    [node-0]. *)
Lemma layout_child_without_fallback :
  outputName 0 namedNode = "relu_1" ∧ opLabel 0 namedNode = "Node 0" ∧
  elkOperatorNode namedNode
  = Some {| k_id := None; k_width := 200; k_height := 120;
            k_labels := [Some ""]; k_nodeType := Some "" |} ∧
  outputName 0 outputlessNode = "node-0" ∧
  opLabel 0 outputlessNode = "Relu" ∧
  elkOperatorNode outputlessNode = None.
Proof. by vm_compute. Qed.

(** ** Determinism and order of emission *)

Lemma mapM_total {A B} (f : A → option B) (g : A → B) (l : list A) :
  Forall (λ x, f x = Some (g x)) l → mapM f l = Some (g <$> l).
Proof.
  induction 1 as [|x l Hx _ IH]; [done|].
  simpl. rewrite Hx. simpl. by rewrite IH.
Qed.

Lemma elkOperatorNode_defined n :
  is_Some (output n) → elkOperatorNode n = Some (elkChildOf n).
Proof.
  intros [outs H]. unfold elkOperatorNode, elkChildOf. rewrite H. simpl.
  by destruct outs.
Qed.

Lemma elkEdgesOfNode_defined n :
  is_Some (input n) → is_Some (output n) →
  elkEdgesOfNode n = Some (elkEdgesFor n).
Proof.
  intros [ins Hi] [outs Ho]. unfold elkEdgesOfNode, elkEdgesFor, inputsOf.
  rewrite Hi, Ho. simpl. destruct ins as [|t ins]; [done|].
  by destruct outs.
Qed.

(** What [layoutGraph] hands to the layout library when the graph has its
    [inputs] and [outputs] and every node has its [input] and [output]
    arrays: the declared inputs, the operators in node order, the declared
    outputs; and the edges in node order then input-list order, followed
    by the edges to the declared outputs. *)
Lemma layoutInput_spec ns (ins outs : list (option string)) :
  Forall (λ n, is_Some (input n) ∧ is_Some (output n)) ns →
  layoutInput ns (Some ins) (Some outs)
  = Some ((elkInputNode <$> ins) ++ (elkChildOf <$> ns) ++ (elkOutputNode <$> outs),
          mjoin (elkEdgesFor <$> ns) ++ (outs ≫= elkOutputEdges ns)).
Proof.
  intros Hall. unfold layoutInput.
  rewrite (mapM_total elkOperatorNode elkChildOf).
  2:{ eapply Forall_impl; [exact Hall|]. intros n [_ Ho].
      by apply elkOperatorNode_defined. }
  simpl. rewrite (mapM_total elkEdgesOfNode elkEdgesFor); [done|].
  eapply Forall_impl; [exact Hall|]. intros n [Hi Ho].
  by apply elkEdgesOfNode_defined.
Qed.

(** C8.  The builder is a function of the node array alone: every run
    starts from fresh locals, so equal inputs give equal graphs, with the
    same ids, coordinates and labels in the same order.  The nodes are the
    input nodes, in the order in which their names are first consumed,
    followed by one operator node per array position; the edges follow
    the order of the nodes and, within a node, of its input list.  The
    same holds for the children and edges that [layoutGraph] prepares. *)
Theorem build_deterministic (ns1 ns2 : list RawNode) :
  ns1 = ns2 →
  buildGraph ns1 = buildGraph ns2 ∧
  viewerGraph (Some ns1) = viewerGraph (Some ns2) ∧
  g_nodes (buildGraph ns1)
  = imap inputNode (distinctInputs ns1)
    ++ imap (operatorNode (build_state ns1)) ns1 ∧
  g_edges (buildGraph ns1)
  = mjoin (imap (edgesOfNode (build_state ns1)) ns1) ∧
  (∀ ins outs, layoutInput ns1 ins outs = layoutInput ns2 ins outs) ∧
  (∀ ins outs : list (option string),
     Forall (λ n, is_Some (input n) ∧ is_Some (output n)) ns1 →
     snd <$> layoutInput ns1 (Some ins) (Some outs)
     = Some (mjoin (elkEdgesFor <$> ns1) ++ (outs ≫= elkOutputEdges ns1))).
Proof.
  intros <-. split; [done|]. split; [done|].
  destruct (build_state_spec ns1) as (_ & Hn & He).
  split; [done|]. split; [done|]. split; [done|].
  intros ins outs Hall.
  by rewrite layoutInput_spec.
Qed.

Lemma build_deterministic_witness :
  chain = chain ∧
  buildGraph chain = buildGraph chain ∧
  g_edges (buildGraph chain)
  = mjoin (imap (edgesOfNode (build_state chain)) chain).
Proof.
  split; [reflexivity|].
  destruct (build_deterministic chain chain eq_refl) as (H1 & _ & _ & H2 & _).
  split; [exact H1|exact H2].
Defined.

(** ** Node labels *)

Lemma pretty_N_go_length x s :
  String.length s ≤ String.length (pretty_N_go x s).
Proof.
  revert s. induction (N.lt_wf_0 x) as [x _ IH]; intros s.
  destruct (decide (x = 0)%N) as [->|Hx]; [by rewrite pretty_N_go_0|].
  rewrite pretty_N_go_step by lia.
  etrans; [|apply IH; apply N.div_lt; lia]. simpl. lia.
Qed.

Lemma pretty_N_nonempty (x : N) : pretty x ≠ "".
Proof.
  unfold pretty, pretty_N. destruct (decide (x = 0)%N) as [->|Hx]; [done|].
  rewrite pretty_N_go_step by lia. intros H.
  pose proof (pretty_N_go_length (x `div` 10)
                (String (pretty_N_char (x `mod` 10)) "")) as Hlen.
  rewrite H in Hlen. simpl in Hlen. lia.
Qed.

Lemma pretty_Z_nonempty (z : Z) : pretty z ≠ "".
Proof.
  destruct z as [|p|p]; [done| |done].
  apply (pretty_N_nonempty (Npos p)).
Qed.

Lemma join_nonempty sep x l : x ≠ "" → JS.join sep (x :: l) ≠ "".
Proof.
  intros Hx. destruct x as [|a x]; [done|]. by destruct l.
Qed.

Lemma getAttrValue_attrText n key :
  getAttrValue (default [] (attribute n)) key = attrText n key.
Proof.
  unfold getAttrValue, attrText.
  destruct (findAttr _ key) as [[nm [[|z zs]|]]|]; try done.
  apply (or_else_present _ _ _ eq_refl).
  change (JS.join times_sign (pretty z :: (pretty <$> zs)) ≠ "").
  apply join_nonempty, pretty_Z_nonempty.
Qed.

Lemma includes_nonempty word t :
  JS.includes word "" = false → JS.includes word t = true → t ≠ "".
Proof. intros H0 Ht ->. congruence. Qed.

Lemma findInput_inputText n word letter :
  JS.includes word "" = false →
  findInput n word letter = inputText n word letter.
Proof.
  intros H0. unfold findInput, inputText, inputsOf.
  destruct (input n) as [ins|]; simpl; [|done].
  destruct (List.find (JS.includes word) ins) as [t|] eqn:E; [|done].
  apply (or_else_present _ _ _ eq_refl).
  apply find_some in E as [_ E]. by eapply includes_nonempty.
Qed.




Lemma conv_lines n :
  opType n = Some "Conv" →
  nodeLines n =
    [ Some "Conv";
      Some ("Weight: " +:+ inputText n "weight" "W");
      Some ("Bias: " +:+ inputText n "bias" "B");
      Some ("Dilations: " +:+ attrText n "dilations");
      Some ("Kernel: " +:+ attrText n "kernel_shape");
      Some ("Padding: " +:+ attrText n "pads");
      Some ("Strides: " +:+ attrText n "strides") ].
Proof.
  intros H. unfold nodeLines, getConvDetails.
  rewrite bool_decide_eq_true_2 by done.
  rewrite H, !getAttrValue_attrText, !findInput_inputText by done.
  done.
Qed.




(** ** The parser *)

Section ParserFacts.

Context {Root MsgType Message T : Type}.
Variable protobuf_load : Completion Root.
Variable lookupType : Root → Completion MsgType.
Variable arrayBuffer : File → Completion (list Byte.byte).
Variable decode : MsgType → list Byte.byte → Completion Message.
Variable toObject : MsgType → Message → Completion (ModelObject T).
Variable nullReadMessage : string.

Local Abbreviation parse :=
  (parseONNXModelComplete protobuf_load lookupType arrayBuffer decode
     toObject nullReadMessage).
Local Abbreviation body :=
  (parseBody protobuf_load lookupType arrayBuffer decode toObject
     nullReadMessage).

(** Run the [try] block through a collaborator whose outcome is known. *)
Ltac collaborate H := rewrite H; simpl.

(** Whatever is thrown inside the [try] block comes back as the failure
    object, and nothing else is in it. *)
Lemma parse_throw file err :
  body file = Throw err →
  parse file = Failed (message err) ∧
  parsingMethod (parse file) = "fallback" ∧
  resultKeys (parse file) = ["error"; "parsingMethod"].
Proof. unfold parseONNXModelComplete. by intros ->. Qed.

(** A throwing decoder makes the [try] block throw. *)
Lemma body_decode_throws file root ty buffer err :
  protobuf_load = Normal root → lookupType root = Normal ty →
  arrayBuffer file = Normal buffer → decode ty buffer = Throw err →
  body file = Throw err.
Proof.
  intros H1 H2 H3 H4. unfold parseBody.
  collaborate H1. collaborate H2. collaborate H3. by rewrite H4.
Qed.

(** The parser always returns one of its two objects. *)
Lemma parse_total file :
  (∃ msg, parse file = Failed msg) ∨
  (∃ f p ins outs ns inits a, parse file = Parsed f p ins outs ns inits a).
Proof. destruct (parse file); eauto 10. Qed.

(** What a successful result holds. *)
Lemma parsed_inv file f p ins outs ns inits a :
  parse file = Parsed f p ins outs ns inits a →
  ∃ model g,
    graph model = Some g ∧
    ns = default [] (node g) ∧
    ins = portsOf (gp_input g) ∧ outs = portsOf (gp_output g) ∧
    inits = default [] (initializer g) ∧
    a = {| totalInputs := lengthOr0 (gp_input g);
           totalOutputs := lengthOr0 (gp_output g);
           totalNodes := length ns;
           totalInitializers := lengthOr0 (initializer g);
           modelComplexity := complexityOf (length ns);
           operatorFrequency := frequencyOf ns |}.
Proof.
  unfold parseONNXModelComplete, parseBody.
  destruct protobuf_load as [root|]; simpl; [|done].
  destruct (lookupType root) as [ty|]; simpl; [|done].
  destruct (arrayBuffer file) as [buffer|]; simpl; [|done].
  destruct (decode ty buffer) as [decoded|]; simpl; [|done].
  destruct (toObject ty decoded) as [model|]; simpl; [|done].
  unfold readGraph, graphNodesOf.
  destruct (graph model) as [g|] eqn:Hg; simpl; [|done].
  intros [= <- <- <- <- <- <- <-]. exists model, g. by rewrite Hg.
Qed.

(** A decoded model without [graph] ends in the failure object. *)
Lemma parse_graphless file root ty buffer decoded model :
  protobuf_load = Normal root → lookupType root = Normal ty →
  arrayBuffer file = Normal buffer → decode ty buffer = Normal decoded →
  toObject ty decoded = Normal model → graph model = None →
  parse file = Failed nullReadMessage.
Proof.
  intros H1 H2 H3 H4 H5 H6. unfold parseONNXModelComplete, parseBody, readGraph.
  collaborate H1. collaborate H2. collaborate H3. collaborate H4.
  collaborate H5. by rewrite H6.
Qed.

(** A decoded model with a [graph] ends in the success object. *)
Lemma parse_with_graph file root ty buffer decoded model g :
  protobuf_load = Normal root → lookupType root = Normal ty →
  arrayBuffer file = Normal buffer → decode ty buffer = Normal decoded →
  toObject ty decoded = Normal model → graph model = Some g →
  parsingMethod (parse file) = "runtime-load".
Proof.
  intros H1 H2 H3 H4 H5 H6. unfold parseONNXModelComplete, parseBody, readGraph.
  collaborate H1. collaborate H2. collaborate H3. collaborate H4.
  collaborate H5. by rewrite H6.
Qed.

End ParserFacts.

(** A decoder that rejects the buffer: the failure object carries its
    message. *)
Lemma rejected_file_fails :
  parseRejected "index out of range: 3 + 10 > 5" someFile
  = Failed "index out of range: 3 + 10 > 5".
Proof. reflexivity. Qed.

(** C1.  The failure half holds ([parse_throw]): whatever is thrown while
    decoding comes back as [{ error, parsingMethod: 'fallback' }] and
    nothing escapes.  The success half does not: for a file that decodes
    to a model without [graph] (the empty file for one) the decoder
    returns normally and the node list is read as empty
    ([model.graph?.node || []]), but the read of [model.graph.input]
    throws inside the [try] block, and the parser answers with the
    failure object. *)
Theorem graphless_model_falls_back :
  graph graphlessModel = None ∧
  graphNodesOf graphlessModel = [] ∧
  parseDecoded graphlessModel emptyFile = Failed engineMessage ∧
  parsingMethod (parseDecoded graphlessModel emptyFile) = "fallback" ∧
  parsingMethod (parseDecoded graphlessModel emptyFile) ≠ "runtime-load".
Proof. by vm_compute. Qed.

(** ** The operator-frequency table *)

Lemma occurrences_cons op n ns :
  occurrences op (n :: ns)
  = (if decide (opType n = Some op) then 1 else 0) + occurrences op ns.
Proof.
  unfold occurrences. rewrite filter_cons.
  by destruct (decide (opType n = Some op)).
Qed.

Lemma entryOf_unnamed op k : op = "" ∨ op = "__proto__" → entryOf op k = None.
Proof. intros H. unfold entryOf. rewrite decide_True; [done|tauto]. Qed.

Lemma entryOf_plain op k :
  plainName op → 0 < k → entryOf op k = Some (Count k).
Proof.
  intros [Hne Hin] Hk. unfold entryOf, inheritedNames in *.
  rewrite not_elem_of_cons in Hin. destruct Hin as [Hproto Hfun].
  rewrite decide_False by (intros [?|[?|?]]; [done|done|lia]).
  by rewrite decide_False.
Qed.

Lemma prototypeFunctions_named :
  ("" ∉ prototypeFunctions) ∧ ("__proto__" ∉ prototypeFunctions).
Proof. split; apply (bool_decide_unpack _); by vm_compute. Qed.

Lemma entryOf_function op k :
  op ∈ prototypeFunctions → 0 < k → entryOf op k = Some (NativeText k).
Proof.
  intros Hin Hk. unfold entryOf.
  destruct prototypeFunctions_named as [H1 H2].
  rewrite decide_False.
  - by rewrite decide_True.
  - intros [->|[->|?]]; [done|done|lia].
Qed.

(** One round of the loop, on a table that holds what [entryOf] says for
    the nodes counted so far. *)
Lemma countOp_entry freq n (c : string → nat) :
  (∀ op, freq !! op = entryOf op (c op)) →
  ∀ op, countOp freq n !! op
        = entryOf op (c op + if decide (opType n = Some op) then 1 else 0).
Proof.
  intros Hinv op. unfold countOp, JS.truthy.
  destruct (opType n) as [o|].
  2:{ destruct (decide (None = Some op)); [done|]. by rewrite Nat.add_0_r. }
  change (default "" (Some o)) with o.
  destruct (String.eqb_spec o "") as [->|Hne]; cbn [negb].
  { destruct (decide (Some "" = Some op)) as [[= <-]|].
    - by rewrite Hinv, !entryOf_unnamed by auto.
    - by rewrite Nat.add_0_r. }
  destruct (decide (o = "__proto__")) as [->|Hproto].
  { rewrite bool_decide_eq_true_2 by done.
    destruct (decide (Some "__proto__" = Some op)) as [[= <-]|].
    - by rewrite Hinv, !entryOf_unnamed by auto.
    - by rewrite Nat.add_0_r. }
  rewrite bool_decide_eq_false_2 by done.
  assert (∀ v, <[o:=v]> freq !! op
               = if decide (o = op) then Some v else entryOf op (c op)) as Hins.
  { intros v. destruct (decide (o = op)) as [->|Hop].
    - by rewrite lookup_insert_eq.
    - by rewrite lookup_insert_ne. }
  assert (∀ k, (if decide (o = op) then entryOf o (k + 1) else entryOf op (c op))
               = entryOf op ((if decide (o = op) then k else c op)
                             + if decide (Some o = Some op) then 1 else 0))
    as Hout.
  { intros k. destruct (decide (o = op)) as [->|Hop].
    - by rewrite decide_True.
    - rewrite decide_False by congruence. by rewrite Nat.add_0_r. }
  pose proof (Hinv o) as Ho. unfold entryOf in Ho.
  destruct (decide (o = "" ∨ o = "__proto__" ∨ c o = 0)) as [[?|[?|Hz]]|Hnz];
    [done|done| |].
  - rewrite Ho. destruct (decide (o ∈ prototypeFunctions)) as [Hf|Hf].
    + rewrite bool_decide_eq_true_2, Hins by done.
      rewrite <- (entryOf_function o 1) by (done || lia).
      change (entryOf o 1) with (entryOf o (0 + 1)).
      rewrite (Hout 0). destruct (decide (o = op)) as [<-|]; [by rewrite Hz|done].
    + rewrite bool_decide_eq_false_2, Hins by done.
      assert (plainName o) as Hplain.
      { split; [done|]. unfold inheritedNames. rewrite not_elem_of_cons. done. }
      rewrite <- (entryOf_plain o 1) by (done || lia).
      change (entryOf o 1) with (entryOf o (0 + 1)).
      rewrite (Hout 0). destruct (decide (o = op)) as [<-|]; [by rewrite Hz|done].
  - destruct (decide (o ∈ prototypeFunctions)) as [Hf|Hf]; rewrite Ho, Hins.
    + rewrite <- (entryOf_function o (c o + 1)) by (done || lia).
      rewrite (Hout (c o)). by destruct (decide (o = op)) as [<-|].
    + assert (plainName o) as Hplain.
      { split; [done|]. unfold inheritedNames. rewrite not_elem_of_cons. done. }
      rewrite <- (entryOf_plain o (c o + 1)) by (done || lia).
      rewrite (Hout (c o)). by destruct (decide (o = op)) as [<-|].
Qed.

Lemma foldl_countOp_entry freq ns (c : string → nat) :
  (∀ op, freq !! op = entryOf op (c op)) →
  ∀ op, foldl countOp freq ns !! op = entryOf op (c op + occurrences op ns).
Proof.
  revert freq c. induction ns as [|n ns IH]; intros freq c Hinv op.
  { simpl. unfold occurrences. simpl. by rewrite Nat.add_0_r. }
  simpl.
  rewrite (IH _ (λ op, c op + if decide (opType n = Some op) then 1 else 0)).
  - rewrite occurrences_cons. f_equal. lia.
  - by apply countOp_entry.
Qed.

(** The table in closed form. *)
Lemma frequencyOf_lookup ns op :
  frequencyOf ns !! op = entryOf op (occurrences op ns).
Proof.
  unfold frequencyOf. rewrite (foldl_countOp_entry ∅ ns (λ _, 0)); [done|].
  intros o. rewrite lookup_empty. unfold entryOf.
  rewrite decide_True; [done|auto].
Qed.

Lemma sumValues_empty : sumValues ∅ = 0.
Proof. unfold sumValues. by rewrite map_fold_empty. Qed.

Lemma sumValues_insert (m : gmap string Entry) op v :
  sumValues (<[op := v]> m) + from_option numberOf 0 (m !! op)
  = sumValues m + numberOf v.
Proof.
  unfold sumValues.
  assert (∀ (j1 j2 : string) (z1 z2 : Entry) (y : nat),
            numberOf z1 + (numberOf z2 + y) = numberOf z2 + (numberOf z1 + y))
    as Hcomm by (intros; lia).
  destruct (m !! op) as [w|] eqn:E; simpl.
  - rewrite <- insert_delete_eq.
    rewrite map_fold_insert_L; [|by intros; apply Hcomm|by rewrite lookup_delete_eq].
    rewrite (map_fold_delete_L _ _ op w m); [lia|by intros; apply Hcomm|done].
  - rewrite map_fold_insert_L; [lia|by intros; apply Hcomm|done].
Qed.

Lemma plainTyped_spec n :
  plainTyped n ↔ ∃ op, opType n = Some op ∧ plainName op.
Proof.
  unfold plainTyped. destruct (opType n) as [o|]; simpl.
  - split; [eauto|]. by intros (o' & [= <-] & H).
  - split; [done|]. by intros (? & ? & _).
Qed.

Lemma plainName_spec op :
  plainName op ↔ op ≠ "" ∧ op ≠ "__proto__" ∧ op ∉ prototypeFunctions.
Proof. unfold plainName, inheritedNames. rewrite not_elem_of_cons. tauto. Qed.

(** A number is added for a node with a plain operator type, and for no
    other. *)
Lemma countOp_sum freq n (c : string → nat) :
  (∀ op, freq !! op = entryOf op (c op)) →
  sumValues (countOp freq n)
  = sumValues freq + if decide (plainTyped n) then 1 else 0.
Proof.
  intros Hinv. pose proof (plainTyped_spec n) as Hpt.
  unfold countOp, JS.truthy.
  destruct (opType n) as [o|] eqn:Eo.
  2:{ rewrite decide_False; [lia|]. rewrite Hpt. by intros (? & ? & _). }
  change (default "" (Some o)) with o.
  assert (plainTyped n ↔ plainName o) as Hpo.
  { rewrite Hpt. split; [by intros (? & [= <-] & ?)|eauto]. }
  rewrite (decide_ext _ _ _ _ Hpo). clear Hpt Hpo.
  rewrite (decide_ext _ _ _ _ (plainName_spec o)).
  destruct (String.eqb_spec o "") as [->|Hne]; cbn [negb].
  { rewrite decide_False; [lia|tauto]. }
  destruct (decide (o = "__proto__")) as [->|Hproto].
  { rewrite bool_decide_eq_true_2 by done. rewrite decide_False; [lia|tauto]. }
  rewrite bool_decide_eq_false_2 by done.
  pose proof (Hinv o) as Ho. unfold entryOf in Ho.
  destruct (decide (o ∈ prototypeFunctions)) as [Hf|Hf].
  - rewrite decide_False by tauto.
    destruct (decide (o = "" ∨ o = "__proto__" ∨ c o = 0)); rewrite Ho.
    + rewrite bool_decide_eq_true_2 by done.
      pose proof (sumValues_insert freq o (NativeText 1)) as H.
      rewrite Ho in H. simpl in H. lia.
    + pose proof (sumValues_insert freq o (NativeText (c o + 1))) as H.
      rewrite Ho in H. simpl in H. lia.
  - rewrite decide_True by tauto.
    destruct (decide (o = "" ∨ o = "__proto__" ∨ c o = 0)); rewrite Ho.
    + rewrite bool_decide_eq_false_2 by done.
      pose proof (sumValues_insert freq o (Count 1)) as H.
      rewrite Ho in H. simpl in H. lia.
    + pose proof (sumValues_insert freq o (Count (c o + 1))) as H.
      rewrite Ho in H. simpl in H. lia.
Qed.

Lemma foldl_countOp_sum freq ns (c : string → nat) :
  (∀ op, freq !! op = entryOf op (c op)) →
  sumValues (foldl countOp freq ns) = sumValues freq + length (countedNodes ns).
Proof.
  revert freq c. induction ns as [|n ns IH]; intros freq c Hinv.
  { simpl. unfold countedNodes. simpl. lia. }
  simpl.
  rewrite (IH _ (λ op, c op + if decide (opType n = Some op) then 1 else 0))
    by (by apply countOp_entry).
  rewrite (countOp_sum freq n c Hinv). unfold countedNodes.
  rewrite filter_cons. destruct (decide (plainTyped n)); simpl; lia.
Qed.

(** The numbers of the table add up to the number of nodes with a plain
    operator type. *)
Lemma frequencyOf_sum ns : sumValues (frequencyOf ns) = length (countedNodes ns).
Proof.
  unfold frequencyOf. rewrite (foldl_countOp_sum ∅ ns (λ _, 0)).
  - by rewrite sumValues_empty.
  - intros o. rewrite lookup_empty. unfold entryOf.
    rewrite decide_True; [done|auto].
Qed.


Lemma occurrences_pos op ns :
  0 < occurrences op ns ↔ ∃ n, n ∈ ns ∧ opType n = Some op.
Proof.
  unfold occurrences. split.
  - intros H. destruct (filter _ ns) as [|n l] eqn:E; [simpl in H; lia|].
    assert (n ∈ filter (λ n, opType n = Some op) ns) as Hin
      by (rewrite E; by left).
    apply list_elem_of_filter in Hin as [? ?]. eauto.
  - intros (n & Hn & Hop).
    assert (n ∈ filter (λ n, opType n = Some op) ns) as Hin
      by (by apply list_elem_of_filter).
    destruct (filter _ ns); [by apply elem_of_nil in Hin|simpl; lia].
Qed.

(** ** The analysis of a decoded model *)

Section DecodedModel.

Context {Root MsgType Message T : Type}.
Variable protobuf_load : Completion Root.
Variable lookupType : Root → Completion MsgType.
Variable arrayBuffer : File → Completion (list Byte.byte).
Variable decode : MsgType → list Byte.byte → Completion Message.
Variable toObject : MsgType → Message → Completion (ModelObject T).
Variable nullReadMessage : string.

Local Abbreviation parse :=
  (parseONNXModelComplete protobuf_load lookupType arrayBuffer decode
     toObject nullReadMessage).

(** The object returned for a file that decodes to a model with a
    [graph], in terms of the arrays of that graph. *)
Lemma parse_model file root ty buffer decoded model g :
  protobuf_load = Normal root → lookupType root = Normal ty →
  arrayBuffer file = Normal buffer → decode ty buffer = Normal decoded →
  toObject ty decoded = Normal model → graph model = Some g →
  parse file
  = Parsed file
      (JS.or_else (producerName model) "Unknown",
       JS.or_else (producerVersion model) "Unknown")
      (portsOf (gp_input g)) (portsOf (gp_output g))
      (default [] (node g)) (default [] (initializer g))
      {| totalInputs := length (default [] (gp_input g));
         totalOutputs := length (default [] (gp_output g));
         totalNodes := length (default [] (node g));
         totalInitializers := length (default [] (initializer g));
         modelComplexity := complexityOf (length (default [] (node g)));
         operatorFrequency := frequencyOf (default [] (node g)) |}.
Proof.
  intros H1 H2 H3 H4 H5 H6.
  unfold parseONNXModelComplete, parseBody, readGraph, graphNodesOf.
  rewrite H1; simpl. rewrite H2; simpl. rewrite H3; simpl.
  rewrite H4; simpl. rewrite H5; simpl. rewrite H6; simpl.
  unfold lengthOr0.
  by destruct (gp_input g), (gp_output g), (initializer g).
Qed.

(** C6.  For a file that decodes to a model with a graph the parser
    returns the success object, whose node list is the node array of the
    decoded graph, and its [modelComplexity] is a threshold function of
    the length of that array, which is also its [totalNodes]: [High]
    exactly above 1000, [Medium] exactly above 100 and up to 1000, [Low]
    exactly up to 100; a model of 1500 nodes is [High].  The function
    takes these three values and no other. *)
Theorem complexity_thresholds
    (file : File) root ty buffer decoded model g (ns : list RawNode) :
  protobuf_load = Normal root → lookupType root = Normal ty →
  arrayBuffer file = Normal buffer → decode ty buffer = Normal decoded →
  toObject ty decoded = Normal model → graph model = Some g →
  ns = default [] (node g) →
  ∃ f p ins outs inits a,
    parse file = Parsed f p ins outs ns inits a ∧
    totalNodes a = length ns ∧
    modelComplexity a = complexityOf (length ns) ∧
    (modelComplexity a = "High" ↔ 1000 < length ns) ∧
    (modelComplexity a = "Medium" ↔ 100 < length ns ≤ 1000) ∧
    (modelComplexity a = "Low" ↔ length ns ≤ 100) ∧
    (length ns = 1500 → modelComplexity a = "High") ∧
    (∀ count,
       (complexityOf count = "High" ↔ 1000 < count) ∧
       (complexityOf count = "Medium" ↔ 100 < count ≤ 1000) ∧
       (complexityOf count = "Low" ↔ count ≤ 100)).
Proof.
  intros H1 H2 H3 H4 H5 H6 ->.
  assert (∀ count,
            (complexityOf count = "High" ↔ 1000 < count) ∧
            (complexityOf count = "Medium" ↔ 100 < count ≤ 1000) ∧
            (complexityOf count = "Low" ↔ count ≤ 100)) as Hthr.
  { intros count. unfold complexityOf.
    destruct (Nat.ltb_spec 1000 count), (Nat.ltb_spec 100 count);
      (split; [|split]); split; first [done|lia]. }
  eexists _, _, _, _, _, _.
  split; [by apply (parse_model file root ty buffer decoded model g)|].
  cbn [totalNodes modelComplexity].
  destruct (Hthr (length (default [] (node g)))) as (Hh & Hm & Hl).
  split; [done|]. split; [done|]. split; [done|]. split; [done|].
  split; [done|]. split; [|done].
  intros E. apply Hh. lia.
Qed.


End DecodedModel.

Lemma complexity_thresholds_witness :
  ∃ f p ins outs inits a,
    parseDecoded largeModel someFile
    = Parsed f p ins outs (replicate 1500 (decodedNode "Relu" ["x"] ["x"]))
        inits a ∧
    totalNodes a = 1500 ∧
    modelComplexity a = "High".
Proof.
  destruct (complexity_thresholds
              (Normal ()) (λ _, Normal ()) (λ _, Normal []) (λ _ _, Normal ())
              (λ _ _, Normal largeModel) engineMessage someFile
              () () [] () largeModel _
              (replicate 1500 (decodedNode "Relu" ["x"] ["x"]))
              eq_refl eq_refl eq_refl eq_refl eq_refl eq_refl eq_refl)
    as (f & p & ins & outs & inits & a & Hparse & Htotal & _ & _ & _ & _ & H & _).
  exists f, p, ins, outs, inits, a.
  split; [exact Hparse|].
  split; [exact (eq_trans Htotal (length_replicate 1500 _))|].
  exact (H (length_replicate 1500 _)).
Defined.



(** The names the table cannot count: two nodes of type [__proto__] leave
    it empty, two nodes of type [constructor] leave a string in it. *)
Lemma inherited_names_are_not_counted :
  parseDecoded protoModel someFile
  = Parsed someFile ("pytorch", "2.1") [] []
      [decodedNode "__proto__" ["x"] ["y"]; decodedNode "__proto__" ["y"] ["z"]]
      []
      {| totalInputs := 0; totalOutputs := 0; totalNodes := 2;
         totalInitializers := 0; modelComplexity := "Low";
         operatorFrequency := ∅ |} ∧
  parseDecoded constructorModel someFile
  = Parsed someFile ("pytorch", "2.1") [] []
      [decodedNode "constructor" ["x"] ["y"];
       decodedNode "constructor" ["y"] ["z"]]
      []
      {| totalInputs := 0; totalOutputs := 0; totalNodes := 2;
         totalInitializers := 0; modelComplexity := "Low";
         operatorFrequency := {[ "constructor" := NativeText 2 ]} |}.
Proof. split; by vm_compute. Qed.

(** * Further properties of the code *)

(** ** The ids the builder hands out *)

(** Whatever [getId] keeps about the table and the counter, both passes
    keep. *)
Lemma pass1_keeps (P : gmap string string → nat → Prop) ns st :
  (∀ name s, P (nameToId s) (uid s) →
             P (nameToId (getId name s).2) (uid (getId name s).2)) →
  P (nameToId st) (uid st) →
  P (nameToId (pass1 ns st)) (uid (pass1 ns st)).
Proof.
  intros Hstep. revert st. induction ns as [|n ns IH]; intros st HP; [done|].
  apply (IH (pass1_node n st)). unfold pass1_node.
  destruct (input n) as [ins|]; [|done].
  clear IH. revert st HP. induction ins as [|t ins IH]; intros st HP; [done|].
  apply (IH (pass1_input t st)). unfold pass1_input.
  destruct (decide _); [done|].
  pose proof (Hstep t st HP) as H. by destruct (getId t st).
Qed.

Lemma pass2_keeps (P : gmap string string → nat → Prop) k ns st :
  (∀ name s, P (nameToId s) (uid s) →
             P (nameToId (getId name s).2) (uid (getId name s).2)) →
  P (nameToId st) (uid st) →
  P (nameToId (pass2_from k ns st)) (uid (pass2_from k ns st)).
Proof.
  intros Hstep. revert k st. induction ns as [|n ns IH]; intros k st HP; [done|].
  apply (IH (S k) (pass2_node k n st)). rewrite pass2_node_eq. cbv zeta.
  set (nodeId := (getId (outputName k n) st).1).
  set (st2 := push_node _ _).
  assert (P (nameToId st2) (uid st2)) as HP2 by apply (Hstep (outputName k n) st HP).
  clearbody st2 nodeId. clear IH.
  revert st2 HP2. induction (inputsOf n) as [|t ins IH]; intros st2 HP2; [done|].
  apply (IH (pass2_input nodeId t st2)). rewrite pass2_input_eq.
  by apply (Hstep t).
Qed.

Lemma build_state_keeps (P : gmap string string → nat → Prop) ns :
  (∀ name s, P (nameToId s) (uid s) →
             P (nameToId (getId name s).2) (uid (getId name s).2)) →
  P ∅ 1 →
  P (nameToId (build_state ns)) (uid (build_state ns)).
Proof.
  intros Hstep H0. unfold build_state, pass2.
  apply (pass2_keeps P 0 ns _ Hstep), (pass1_keeps P ns initial Hstep H0).
Qed.


Lemma getId_dense name st :
  dense (nameToId st) (uid st) →
  dense (nameToId (getId name st).2) (uid (getId name st).2).
Proof.
  intros [Hsize Hall]. unfold getId.
  destruct (nameToId st !! name) eqn:E; simpl; [done|].
  split.
  - by rewrite map_size_insert_None, Hsize.
  - intros k Hk. destruct (decide (k = uid st)) as [->|Hne].
    + exists name. by rewrite lookup_insert_eq.
    + destruct (Hall k) as [t Ht]; [lia|]. exists t.
      rewrite lookup_insert_ne; [done|]. intros ->. congruence.
Qed.

Lemma getId_dom name st :
  dom (nameToId (getId name st).2) = {[ name ]} ∪ dom (nameToId st).
Proof.
  unfold getId. destruct (nameToId st !! name) eqn:E; simpl.
  - apply (elem_of_dom_2 (D := gset string)) in E.
    apply set_eq. intros x. rewrite elem_of_union, elem_of_singleton.
    split; [tauto|]. by intros [->|?].
  - by rewrite dom_insert_L.
Qed.

Lemma pass2_inputs_dom nodeId ins st :
  dom (nameToId (foldl (λ s i, pass2_input nodeId i s) st ins))
  = dom (nameToId st) ∪ list_to_set ins.
Proof.
  revert st. induction ins as [|t ins IH]; intros st; simpl.
  { by rewrite (right_id_L ∅ (∪)). }
  rewrite IH, pass2_input_eq. simpl. rewrite getId_dom.
  apply set_eq. intros x.
  rewrite !elem_of_union, elem_of_singleton. tauto.
Qed.

Lemma pass2_from_dom k ns st :
  dom (nameToId (pass2_from k ns st))
  = dom (nameToId st)
    ∪ list_to_set (imap (λ j, outputName (k + j)) ns)
    ∪ list_to_set (consumed ns).
Proof.
  revert k st. induction ns as [|n ns IH]; intros k st.
  { simpl. by rewrite !(right_id_L ∅ (∪)). }
  cbn [pass2_from]. rewrite IH, pass2_node_eq. cbv zeta.
  rewrite pass2_inputs_dom.
  change (nameToId (push_node ?nd ?s)) with (nameToId s).
  rewrite getId_dom, imap_cons. unfold consumed. rewrite bind_cons.
  rewrite Nat.add_0_r.
  rewrite (imap_ext (λ j, outputName (S k + j)) ((λ j, outputName (k + j)) ∘ S))
    by (intros j x _; simpl; by rewrite Nat.add_succ_r).
  rewrite list_to_set_cons, list_to_set_app_L.
  apply set_eq. intros x.
  rewrite !elem_of_union, elem_of_singleton. tauto.
Qed.

Lemma pass1_dom ns t :
  t ∈ dom (nameToId (pass1 ns initial)) ↔ t ∈ consumed ns.
Proof.
  rewrite elem_of_dom, <- distinctInputs_elem.
  pose proof (p1_map _ _ (pass1_initial ns)) as Hmap. split.
  - intros [i Hi]. apply Hmap in Hi as (k & Hk & _).
    by eapply list_elem_of_lookup_2.
  - intros (k & Hk)%list_elem_of_lookup_1. eexists. apply Hmap. eauto.
Qed.

Lemma build_state_lookup ns t :
  is_Some (nameToId (build_state ns) !! t)
  ↔ t ∈ consumed ns ∨ t ∈ canonicalNames ns.
Proof.
  rewrite <- elem_of_dom. unfold build_state, pass2.
  rewrite pass2_from_dom, !elem_of_union, !elem_of_list_to_set, pass1_dom.
  unfold canonicalNames. simpl. tauto.
Qed.

(** The final table is one to one on the names it holds. *)
Lemma idOf_inj ns t1 t2 :
  is_Some (nameToId (build_state ns) !! t1) →
  is_Some (nameToId (build_state ns) !! t2) →
  idOf (build_state ns) t1 = idOf (build_state ns) t2 → t1 = t2.
Proof.
  intros [i1 H1] [i2 H2]. rewrite (idOf_lookup _ _ _ H1), (idOf_lookup _ _ _ H2).
  intros ->. destruct (build_state_wf ns) as (_ & _ & Hinj). by eapply Hinj.
Qed.

(** X1.  The tensor names a run requests ids for are the consumed names and the
    canonical names of the nodes; the ids handed out are [id-1], [id-2],
    ... without a gap, one for each distinct name, and the counter ends
    one above their number. *)
Theorem ids_are_consecutive (ns : list RawNode) :
  let F := build_state ns in
  (∀ t, is_Some (nameToId F !! t) ↔ t ∈ consumed ns ∨ t ∈ canonicalNames ns) ∧
  uid F = S (size (nameToId F)) ∧
  size (nameToId F)
  = size (list_to_set (consumed ns ++ canonicalNames ns) : gset string) ∧
  (∀ id, (∃ t, nameToId F !! t = Some id)
         ↔ ∃ k, 1 ≤ k ≤ size (nameToId F) ∧ id = idStr k).
Proof.
  intros F.
  assert (dense (nameToId F) (uid F)) as [Hsize Hall].
  { apply build_state_keeps; [apply getId_dense|]. split; [done|].
    intros k Hk. lia. }
  split; [apply build_state_lookup|]. split; [done|]. split.
  - rewrite <- size_dom. f_equal. apply set_eq. intros t.
    rewrite elem_of_dom, elem_of_list_to_set, elem_of_app.
    apply build_state_lookup.
  - intros id. split.
    + intros [t Ht]. destruct (build_state_wf ns) as (_ & Hfmt & _).
      destruct (Hfmt _ _ Ht) as (k & -> & Hk). exists k. split; [|done].
      fold F in Hk. lia.
    + intros (k & Hk & ->). apply Hall. lia.
Qed.

(** ** When the node ids are pairwise distinct *)

Lemma imap_as_fmap {A B} (f : nat → A → B) (g : A → B) (l : list A) :
  (∀ i x, l !! i = Some x → f i x = g x) → imap f l = g <$> l.
Proof.
  intros H. rewrite <- imap_const. by apply imap_ext.
Qed.

Lemma input_node_id ns k t :
  distinctInputs ns !! k = Some t → idOf (build_state ns) t = idStr (S k).
Proof.
  intros Hk. destruct (consumed_id ns t) as (k' & Hk' & Hid).
  { apply distinctInputs_elem. by eapply list_elem_of_lookup_2. }
  rewrite (idOf_lookup _ _ _ Hid). do 2 f_equal.
  eapply NoDup_lookup; [apply (p1_nodup _ _ (pass1_initial ns))|done..].
Qed.

(** ** Input nodes and operator nodes that share an id *)

(** The nodes of the built graph by position: an input node below the
    number of distinct consumed names, an operator node from there on. *)
Lemma built_node_cases ns a nd :
  g_nodes (buildGraph ns) !! a = Some nd →
  (∃ t, distinctInputs ns !! a = Some t ∧ nd = inputNode a t) ∨
  (∃ i p, a = length (distinctInputs ns) + i ∧ ns !! i = Some p ∧
          nd = operatorNode (build_state ns) i p).
Proof.
  unfold buildGraph. cbn [g_nodes].
  destruct (build_state_spec ns) as (_ & -> & _).
  intros [H|[Hlen H]]%lookup_app_Some.
  - left. apply list_lookup_imap_Some in H as (t & Ht & ->). eauto.
  - right. rewrite length_imap in Hlen, H.
    apply list_lookup_imap_Some in H as (p & Hp & ->).
    exists (a - length (distinctInputs ns)), p. split; [lia|done].
Qed.

Lemma shared_id_iff ns k t i p :
  distinctInputs ns !! k = Some t → ns !! i = Some p →
  n_id (inputNode k t) = n_id (operatorNode (build_state ns) i p)
  ↔ outputName i p = t.
Proof.
  intros Hk Hi. cbn [n_id inputNode operatorNode].
  rewrite <- (input_node_id ns k t Hk). split.
  - intros H. symmetry. revert H. apply idOf_inj.
    + apply build_state_lookup. left. apply distinctInputs_elem.
      by eapply list_elem_of_lookup_2.
    + by apply build_state_defined.
  - by intros ->.
Qed.

(** C10, as the code has it.  The input node of a consumed tensor and
    the operator node of a node sit at different positions of the built
    node list, and they carry the same id exactly when the tensor is the
    canonical name of the node.  So whenever a consumed tensor is the
    canonical name of a node, which it is when it is the first output of
    the node and not empty, the list holds an input node and an operator
    node with one id; and an input node and an operator node with one id
    are in the list only if some consumed tensor is the canonical name
    of a node. *)
Theorem shared_id_of_chained_tensor (ns : list RawNode) :
  (∀ k t i p,
     distinctInputs ns !! k = Some t → ns !! i = Some p →
     g_nodes (buildGraph ns) !! k = Some (inputNode k t) ∧
     g_nodes (buildGraph ns) !! (length (distinctInputs ns) + i)
     = Some (operatorNode (build_state ns) i p) ∧
     k ≠ length (distinctInputs ns) + i ∧
     (n_id (inputNode k t) = n_id (operatorNode (build_state ns) i p)
      ↔ outputName i p = t)) ∧
  (∀ j i c p t,
     ns !! j = Some c → t ∈ inputsOf c → ns !! i = Some p →
     outputName i p = t ∨ (JS.first (output p) = Some t ∧ t ≠ "") →
     ∃ a b na nb,
       a ≠ b ∧
       g_nodes (buildGraph ns) !! a = Some na ∧
       g_nodes (buildGraph ns) !! b = Some nb ∧
       n_type na = KInput ∧ n_label na = input_label t ∧
       n_type nb = KDefault ∧ n_label nb = opLabel i p ∧
       n_id na = n_id nb) ∧
  ((∃ a b na nb,
      a ≠ b ∧
      g_nodes (buildGraph ns) !! a = Some na ∧
      g_nodes (buildGraph ns) !! b = Some nb ∧
      n_type na = KInput ∧ n_type nb = KDefault ∧ n_id na = n_id nb)
   ↔ ∃ t, t ∈ consumed ns ∧ t ∈ canonicalNames ns).
Proof.
  assert (∀ k t i p,
     distinctInputs ns !! k = Some t → ns !! i = Some p →
     g_nodes (buildGraph ns) !! k = Some (inputNode k t) ∧
     g_nodes (buildGraph ns) !! (length (distinctInputs ns) + i)
     = Some (operatorNode (build_state ns) i p) ∧
     k ≠ length (distinctInputs ns) + i ∧
     (n_id (inputNode k t) = n_id (operatorNode (build_state ns) i p)
      ↔ outputName i p = t)) as Hpair.
  { intros k t i p Hk Hi.
    split; [by apply inputNode_elem|]. split; [by apply operatorNode_elem|].
    split; [apply lookup_lt_Some in Hk; lia|]. by apply shared_id_iff. }
  split; [exact Hpair|]. split.
  - intros j i c p t Hc Ht Hp Hcanon.
    assert (outputName i p = t) as Hout.
    { destruct Hcanon as [?|[Hfirst Hne]]; [done|].
      unfold outputName. by rewrite (or_present _ _ t), (or_else_present _ _ t). }
    assert (t ∈ distinctInputs ns) as Hin.
    { apply distinctInputs_elem, consumed_elem. exists c.
      split; [done|]. by eapply list_elem_of_lookup_2. }
    apply list_elem_of_lookup_1 in Hin as [k Hk].
    destruct (Hpair k t i p Hk Hp) as (Ha & Hb & Hab & Hid).
    exists k, (length (distinctInputs ns) + i),
      (inputNode k t), (operatorNode (build_state ns) i p).
    do 3 (split; [done|]). do 4 (split; [done|]). by apply Hid.
  - split.
    + intros (a & b & na & nb & Hab & Ha & Hb & Hka & Hkb & Hid).
      apply built_node_cases in Ha as [(t & Ht & ->)|(i & p & _ & _ & ->)];
        [|done].
      apply built_node_cases in Hb as [(t' & _ & ->)|(i & p & _ & Hp & ->)];
        [done|].
      apply (shared_id_iff ns a t i p Ht Hp) in Hid.
      exists t. split.
      * apply distinctInputs_elem. by eapply list_elem_of_lookup_2.
      * unfold canonicalNames. apply elem_of_lookup_imap. eauto.
    + intros (t & Hc & Hn).
      apply distinctInputs_elem, list_elem_of_lookup_1 in Hc as [k Hk].
      unfold canonicalNames in Hn.
      apply elem_of_lookup_imap in Hn as (i & p & Ht & Hp).
      destruct (Hpair k t i p Hk Hp) as (Ha & Hb & Hab & Hid).
      exists k, (length (distinctInputs ns) + i),
        (inputNode k t), (operatorNode (build_state ns) i p).
      do 3 (split; [done|]). do 2 (split; [done|]). by apply Hid.
Qed.

Lemma shared_id_of_chained_tensor_witness :
  chain !! 1 = Some (rawNode "Relu" ["y"] ["z"]) ∧
  "y" ∈ inputsOf (rawNode "Relu" ["y"] ["z"]) ∧
  chain !! 0 = Some (rawNode "Conv" ["x"] ["y"]) ∧
  JS.first (output (rawNode "Conv" ["x"] ["y"])) = Some "y" ∧
  "y" ≠ "" ∧
  ∃ a b na nb,
    a ≠ b ∧
    g_nodes (buildGraph chain) !! a = Some na ∧
    g_nodes (buildGraph chain) !! b = Some nb ∧
    n_type na = KInput ∧ n_label na = input_label "y" ∧
    n_type nb = KDefault ∧ n_label nb = opLabel 0 (rawNode "Conv" ["x"] ["y"]) ∧
    n_id na = n_id nb.
Proof.
  assert ("y" ∈ inputsOf (rawNode "Relu" ["y"] ["z"])) as Hin
    by apply list_elem_of_here.
  assert ("y" ≠ "") as Hne by discriminate.
  split; [reflexivity|]. split; [exact Hin|]. split; [reflexivity|].
  split; [reflexivity|]. split; [exact Hne|].
  exact (proj1 (proj2 (shared_id_of_chained_tensor chain)) 1 0 _ _ "y"
           eq_refl Hin eq_refl (or_intror (conj eq_refl Hne))).
Defined.

(** C10 as it is worded fails when the consumed tensor is a later output
    of its producer: [b] is produced by the first operator and consumed by
    the second, and the ids of the built nodes are pairwise distinct. *)
Lemma distinct_ids_despite_chaining :
  forked !! 0 = Some (rawNode "Split" ["x"] ["a"; "b"]) ∧
  forked !! 1 = Some (rawNode "Relu" ["b"] ["c"]) ∧
  produces (rawNode "Split" ["x"] ["a"; "b"]) "b" ∧
  "b" ∈ inputsOf (rawNode "Relu" ["b"] ["c"]) ∧
  n_id <$> g_nodes (buildGraph forked) = ["id-1"; "id-2"; "id-3"; "id-4"] ∧
  NoDup (n_id <$> g_nodes (buildGraph forked)) ∧
  ¬ (∃ a b na nb,
       a ≠ b ∧
       g_nodes (buildGraph forked) !! a = Some na ∧
       g_nodes (buildGraph forked) !! b = Some nb ∧
       n_id na = n_id nb).
Proof.
  assert (NoDup (n_id <$> g_nodes (buildGraph forked))) as Hnd.
  { apply (bool_decide_unpack _). by vm_compute. }
  split; [done|]. split; [done|].
  split; [exists ["a"; "b"]; split; [done|];
          apply list_elem_of_further, list_elem_of_here|].
  split; [apply list_elem_of_here|].
  split; [done|]. split; [exact Hnd|].
  intros (a & b & na & nb & Hab & Ha & Hb & Hid).
  apply Hab. eapply (NoDup_lookup _ a b (n_id na) Hnd).
  - by rewrite list_lookup_fmap, Ha.
  - by rewrite list_lookup_fmap, Hb, Hid.
Qed.

(** The ids of the built nodes, in order: those of the distinct consumed
    names, then those of the canonical names. *)
Lemma node_ids ns :
  n_id <$> g_nodes (buildGraph ns)
  = (idOf (build_state ns) <$> distinctInputs ns)
    ++ (idOf (build_state ns) <$> canonicalNames ns).
Proof.
  unfold buildGraph. simpl. destruct (build_state_spec ns) as (_ & -> & _).
  rewrite fmap_app, !fmap_imap. f_equal.
  - apply imap_as_fmap. intros k t Hk. simpl. by rewrite (input_node_id ns k t).
  - unfold canonicalNames. by rewrite fmap_imap.
Qed.

Lemma NoDup_idOf ns (l : list string) :
  (∀ t, t ∈ l → is_Some (nameToId (build_state ns) !! t)) →
  NoDup (idOf (build_state ns) <$> l) ↔ NoDup l.
Proof.
  intros Hdef. split; [apply NoDup_fmap_1|].
  apply NoDup_fmap_2_strong. intros x y Hx Hy.
  apply idOf_inj; by apply Hdef.
Qed.

(** X2.  The ids of the nodes the builder returns are pairwise distinct exactly
    when no two nodes have the same canonical name and no canonical name
    is consumed by a node. *)
Theorem node_ids_distinct_iff (ns : list RawNode) :
  NoDup (n_id <$> g_nodes (buildGraph ns))
  ↔ NoDup (canonicalNames ns) ∧
    ∀ t, t ∈ consumed ns → t ∉ canonicalNames ns.
Proof.
  rewrite node_ids, <- fmap_app, NoDup_idOf.
  - rewrite NoDup_app. setoid_rewrite distinctInputs_elem.
    pose proof (p1_nodup _ _ (pass1_initial ns)). tauto.
  - intros t Ht. apply build_state_lookup.
    apply elem_of_app in Ht as [Ht|Ht]; [left|by right].
    by apply distinctInputs_elem.
Qed.

(** X3.  Two operator nodes get the same id exactly when their nodes have the
    same canonical name. *)
Theorem operator_ids_follow_names
    (ns : list RawNode) (i j : nat) (n m : RawNode) :
  ns !! i = Some n → ns !! j = Some m →
  (n_id (operatorNode (build_state ns) i n)
   = n_id (operatorNode (build_state ns) j m)
   ↔ outputName i n = outputName j m) ∧
  g_nodes (buildGraph ns) !! (length (distinctInputs ns) + i)
  = Some (operatorNode (build_state ns) i n).
Proof.
  intros Hn Hm. split; [|by apply operatorNode_elem]. simpl. split.
  - apply idOf_inj; by apply build_state_defined.
  - by intros ->.
Qed.

Lemma operator_ids_follow_names_witness :
  forked !! 0 = Some (rawNode "Split" ["x"] ["a"; "b"]) ∧
  forked !! 1 = Some (rawNode "Relu" ["b"] ["c"]) ∧
  (n_id (operatorNode (build_state forked) 0 (rawNode "Split" ["x"] ["a"; "b"]))
   = n_id (operatorNode (build_state forked) 1 (rawNode "Relu" ["b"] ["c"]))
   ↔ outputName 0 (rawNode "Split" ["x"] ["a"; "b"])
     = outputName 1 (rawNode "Relu" ["b"] ["c"])).
Proof.
  split; [reflexivity|]. split; [reflexivity|].
  exact (proj1 (operator_ids_follow_names forked 0 1 _ _ eq_refl eq_refl)).
Defined.

(** ** Where the nodes are put *)

Lemma NoDup_imap_index {A B} (f : nat → A → B) (l : list A) :
  (∀ i j x y, l !! i = Some x → l !! j = Some y → f i x = f j y → i = j) →
  NoDup (imap f l).
Proof.
  intros Hinj. apply NoDup_alt. intros i j b Hi Hj.
  apply list_lookup_imap_Some in Hi as (x & Hx & ->).
  apply list_lookup_imap_Some in Hj as (y & Hy & Hxy).
  by eapply Hinj.
Qed.

(** X4.  No two nodes of the built graph are put at the same place: the input
    nodes go down the column [x = 50], 100 apart, and the operator nodes
    fill a grid of four columns from [x = 300] on. *)
Theorem positions_distinct (ns : list RawNode) :
  NoDup (position <$> g_nodes (buildGraph ns)) ∧
  (∀ nd, nd ∈ g_nodes (buildGraph ns) →
     (n_type nd = KInput ∧ n_x nd = 50 ∧ 50 ≤ n_y nd) ∨
     (n_type nd = KDefault ∧ 300 ≤ n_x nd ≤ 900 ∧ 100 ≤ n_y nd)).
Proof.
  unfold buildGraph. simpl. destruct (build_state_spec ns) as (_ & -> & _).
  split.
  - rewrite fmap_app, !fmap_imap. apply NoDup_app. split; [|split].
    + apply NoDup_imap_index. intros i j x y _ _.
      unfold position, inputNode, compose. cbn [n_x n_y].
      intros [= H]. lia.
    + intros p Hp Hq.
      apply elem_of_lookup_imap in Hp as (i & x & -> & _).
      apply elem_of_lookup_imap in Hq as (j & y & Hq & _).
      unfold position, inputNode, operatorNode, compose in Hq.
      cbn [n_x n_y] in Hq. injection Hq as Hx _. lia.
    + apply NoDup_imap_index. intros i j x y _ _.
      unfold position, operatorNode, compose. cbn [n_x n_y].
      intros Heq.
      pose proof (f_equal fst Heq) as Hx. pose proof (f_equal snd Heq) as Hy.
      cbn [fst snd] in Hx, Hy.
      pose proof (Nat.div_mod_eq i 4). pose proof (Nat.div_mod_eq j 4). lia.
  - intros nd [Hnd|Hnd]%elem_of_app.
    + apply elem_of_lookup_imap in Hnd as (k & t & -> & _). left.
      unfold inputNode. cbn [n_type n_x n_y]. split; [done|lia].
    + apply elem_of_lookup_imap in Hnd as (i & n & -> & _). right.
      unfold operatorNode. cbn [n_type n_x n_y].
      pose proof (Nat.mod_upper_bound i 4). split; [done|lia].
Qed.

(** ** One edge for each consumption *)

Lemma edge_sources (src : string → string) (tgt : nat → RawNode → string)
    (ns : list RawNode) :
  e_source <$> mjoin (imap (λ i n, (λ t, edgeBetween (src t) (tgt i n))
                                     <$> inputsOf n) ns)
  = src <$> consumed ns.
Proof.
  revert tgt. induction ns as [|n ns IH]; intros tgt; [done|].
  rewrite imap_cons. cbn [mjoin list_join]. fold (@mjoin list _).
  unfold consumed. rewrite bind_cons, !fmap_app. f_equal.
  - rewrite <- list_fmap_compose. by apply list_fmap_ext.
  - apply (IH (tgt ∘ S)).
Qed.

Lemma length_filter_source (es : list FlowEdge) (id : string) :
  length (filter (λ e, e_source e = id) es)
  = length (filter (λ s, s = id) (e_source <$> es)).
Proof.
  induction es as [|e es IH]; [done|].
  rewrite fmap_cons, !filter_cons.
  destruct (decide (e_source e = id)); simpl; by rewrite IH.
Qed.

Lemma length_filter_idOf ns (l : list string) (t : string) :
  is_Some (nameToId (build_state ns) !! t) →
  (∀ x, x ∈ l → is_Some (nameToId (build_state ns) !! x)) →
  length (filter (λ s, s = idOf (build_state ns) t) (idOf (build_state ns) <$> l))
  = length (filter (λ x, x = t) l).
Proof.
  intros Ht. induction l as [|x l IH]; intros Hl; [done|].
  rewrite fmap_cons, !filter_cons.
  assert (is_Some (nameToId (build_state ns) !! x)) as Hx by (apply Hl; by left).
  assert (length (filter (λ s, s = idOf (build_state ns) t)
                    (idOf (build_state ns) <$> l))
          = length (filter (λ x, x = t) l)) as IH'.
  { apply IH. intros y Hy. apply Hl. by right. }
  destruct (decide (x = t)) as [->|Hne].
  - rewrite decide_True by done. simpl. by rewrite IH'.
  - rewrite decide_False; [done|]. intros Heq. apply Hne. by eapply idOf_inj.
Qed.

(** X5.  The builder pushes one edge for each entry of each input list, in
    that order, from the id of the consumed tensor to the id of the
    consuming node: a tensor consumed [k] times is the source of [k]
    edges, all from its one id.  The graph has one node for each distinct
    consumed name and one for each array position. *)
Theorem one_edge_per_consumption (ns : list RawNode) :
  let F := build_state ns in
  e_source <$> g_edges (buildGraph ns) = idOf F <$> consumed ns ∧
  length (g_edges (buildGraph ns)) = length (consumed ns) ∧
  length (g_nodes (buildGraph ns)) = length (distinctInputs ns) + length ns ∧
  (∀ t, t ∈ consumed ns →
     length (filter (λ e, e_source e = idOf F t) (g_edges (buildGraph ns)))
     = length (filter (λ x, x = t) (consumed ns))) ∧
  (∀ e, e ∈ g_edges (buildGraph ns) →
     e_id e = "e-" +:+ e_source e +:+ "-" +:+ e_target e ∧ e_animated e = true).
Proof.
  intros F. subst F. unfold buildGraph. cbn [g_nodes g_edges].
  destruct (build_state_spec ns) as (_ & Hn & He).
  assert (e_source <$> edges (build_state ns)
          = idOf (build_state ns) <$> consumed ns) as Hsrc.
  { rewrite He. unfold edgesOfNode. apply edge_sources. }
  assert (∀ x, x ∈ consumed ns → is_Some (nameToId (build_state ns) !! x))
    as Hdef.
  { intros x Hx. apply build_state_lookup. by left. }
  split; [done|]. split; [|split; [|split]].
  - by rewrite <- (length_fmap e_source), Hsrc, length_fmap.
  - by rewrite Hn, length_app, !length_imap.
  - intros t Ht. rewrite length_filter_source, Hsrc.
    apply length_filter_idOf; [by apply Hdef|done].
  - intros e (i & n & t & _ & _ & ->)%elem_of_edges. done.
Qed.

Lemma one_edge_per_consumption_witness :
  "y" ∈ consumed chain ∧
  length (filter (λ e, e_source e = idOf (build_state chain) "y")
            (g_edges (buildGraph chain)))
  = length (filter (λ x, x = "y") (consumed chain)).
Proof.
  assert ("y" ∈ consumed chain) as H.
  { apply list_elem_of_further, list_elem_of_here. }
  split; [exact H|].
  exact (proj1 (proj2 (proj2 (proj2 (one_edge_per_consumption chain)))) "y" H).
Defined.

(** ** What [layoutGraph] hands to the layout library *)

Lemma head_default_first (o : option (list string)) :
  head (default [] o) = JS.first o.
Proof. by destruct o as [[|x l]|]. Qed.

Lemma elkOperatorNode_is_Some n : is_Some (elkOperatorNode n) → is_Some (output n).
Proof. unfold elkOperatorNode. destruct (output n); [by eexists|by intros [? ?]]. Qed.

Lemma elkEdgesOfNode_is_Some n : is_Some (elkEdgesOfNode n) → is_Some (input n).
Proof. unfold elkEdgesOfNode. destruct (input n); [by eexists|by intros [? ?]]. Qed.

(** Without [graph.inputs] or [graph.outputs] the preparation throws. *)
Lemma layoutInput_is_Some ns ins outs :
  is_Some (layoutInput ns ins outs) → is_Some ins ∧ is_Some outs.
Proof.
  unfold layoutInput. intros [r H].
  destruct (mapM elkOperatorNode ns); [|done].
  destruct ins as [inputs|]; [|done]. destruct outs as [outputs|]; [|done].
  split; by eexists.
Qed.

(** A successful run: every node had its two arrays, and the children and
    edges are the ones of [layoutInput_spec]. *)
Lemma layoutInput_inv ns (ins outs : list (option string)) children es :
  layoutInput ns (Some ins) (Some outs) = Some (children, es) →
  Forall (λ n, is_Some (input n) ∧ is_Some (output n)) ns ∧
  children = (elkInputNode <$> ins) ++ (elkChildOf <$> ns) ++ (elkOutputNode <$> outs) ∧
  es = mjoin (elkEdgesFor <$> ns) ++ (outs ≫= elkOutputEdges ns).
Proof.
  intros H.
  assert (Forall (λ n, is_Some (input n) ∧ is_Some (output n)) ns) as Hall.
  { unfold layoutInput in H.
    destruct (mapM elkOperatorNode ns) as [allNodes|] eqn:E1; [|done].
    simpl in H.
    destruct (mapM elkEdgesOfNode ns) as [nodeEdges|] eqn:E2; [|done].
    assert (is_Some (mapM elkOperatorNode ns)) as H1 by (by eexists).
    assert (is_Some (mapM elkEdgesOfNode ns)) as H2 by (by eexists).
    apply mapM_is_Some_1 in H1. apply mapM_is_Some_1 in H2.
    rewrite Forall_forall in H1, H2. apply Forall_forall. intros n Hn. split.
    - by apply elkEdgesOfNode_is_Some, H2.
    - by apply elkOperatorNode_is_Some, H1. }
  split; [done|]. rewrite layoutInput_spec in H by done.
  by injection H as <- <-.
Qed.

Lemma child_ids ns ins outs :
  k_id <$> (elkInputNode <$> ins) ++ (elkChildOf <$> ns) ++ (elkOutputNode <$> outs)
  = ins ++ (JS.first ∘ output <$> ns) ++ outs.
Proof.
  rewrite !fmap_app, <- !list_fmap_compose. f_equal; [|f_equal].
  - by rewrite <- (list_fmap_id ins) at 2.
  - by rewrite <- (list_fmap_id outs) at 2.
Qed.

Lemma elem_of_node_edges ns e :
  e ∈ mjoin (elkEdgesFor <$> ns) ↔
  ∃ n t, n ∈ ns ∧ t ∈ inputsOf n ∧
         e = {| ke_id := t +:+ "->" +:+ render (JS.first (output n));
                ke_sources := [Some t];
                ke_targets := [JS.first (output n)] |}.
Proof.
  rewrite list_elem_of_join. split.
  - intros (l & He & (n & -> & Hn)%list_elem_of_fmap).
    apply list_elem_of_fmap in He as (t & -> & Ht). eauto.
  - intros (n & t & Hn & Ht & ->). exists (elkEdgesFor n). split.
    + unfold elkEdgesFor. apply list_elem_of_fmap. eauto.
    + by apply list_elem_of_fmap_2.
Qed.

Lemma elem_of_output_edges ns outs e :
  e ∈ outs ≫= elkOutputEdges ns ↔
  ∃ o p, o ∈ outs ∧ producerOf ns o = Some p ∧
         e = {| ke_id := render (JS.first (output p)) +:+ "->" +:+ render o;
                ke_sources := [JS.first (output p)];
                ke_targets := [o] |}.
Proof.
  rewrite list_elem_of_bind. unfold elkOutputEdges. split.
  - intros (o & He & Ho). destruct (producerOf ns o) as [p|] eqn:E.
    + apply list_elem_of_singleton in He as ->. exists o, p.
      by rewrite head_default_first.
    + by apply elem_of_nil in He.
  - intros (o & p & Ho & Hp & ->). exists o. split; [|done].
    rewrite Hp, head_default_first. apply list_elem_of_here.
Qed.

Lemma producerOf_Some ns o p :
  producerOf ns o = Some p →
  p ∈ ns ∧ ∃ s, o = Some s ∧ s ∈ default [] (output p).
Proof.
  intros H. apply find_some in H as [Hin H]. split; [by apply list_elem_of_In|].
  destruct o as [s|]; [|done]. exists s. split; [done|].
  by apply bool_decide_eq_true_1 in H.
Qed.

Lemma length_node_edges ns :
  length (mjoin (elkEdgesFor <$> ns)) = length (consumed ns).
Proof.
  induction ns as [|n ns IH]; [done|].
  change (mjoin (elkEdgesFor <$> n :: ns))
    with (elkEdgesFor n ++ mjoin (elkEdgesFor <$> ns)).
  unfold consumed. rewrite bind_cons, !length_app. fold (consumed ns).
  rewrite IH. unfold elkEdgesFor. by rewrite length_fmap.
Qed.

Lemma length_output_edges ns outs :
  length (outs ≫= elkOutputEdges ns)
  = length (filter (λ o, is_Some (producerOf ns o)) outs).
Proof.
  induction outs as [|o outs IH]; [done|].
  rewrite bind_cons, length_app, filter_cons, IH.
  unfold elkOutputEdges. destruct (producerOf ns o) as [p|].
  - by rewrite decide_True by (by eexists).
  - by rewrite decide_False by (by intros [? ?]).
Qed.

(** X6.  Building the input of the layout throws exactly when the graph has no
    [inputs] or no [outputs], or some node has no [input] array or no
    [output] array.  Otherwise there is one child for each declared
    input, each node and each declared output, in that order, the
    operators under the id of their first output; the edges are one for
    each entry of each input list, then one for each declared output that
    a node produces. *)
Theorem layout_input_throws_iff
    (ns : list RawNode) (ins outs : option (list (option string))) :
  (layoutInput ns ins outs = None
   ↔ ins = None ∨ outs = None
     ∨ Exists (λ n, input n = None ∨ output n = None) ns) ∧
  (∀ children es, layoutInput ns ins outs = Some (children, es) →
     ∃ inputs outputs,
       ins = Some inputs ∧ outs = Some outputs ∧
       k_id <$> children = inputs ++ (JS.first ∘ output <$> ns) ++ outputs ∧
       length children = length inputs + length ns + length outputs ∧
       length es = length (consumed ns)
                   + length (filter (λ o, is_Some (producerOf ns o)) outputs)).
Proof.
  split.
  - split.
    + intros Hnone. destruct ins as [inputs|]; [|by left].
      destruct outs as [outputs|]; [|by right; left]. right. right.
      destruct (decide (Forall (λ n, is_Some (input n) ∧ is_Some (output n)) ns))
        as [Hall|Hnot].
      { by rewrite layoutInput_spec in Hnone. }
      apply not_Forall_Exists in Hnot; [|apply _].
      eapply Exists_impl; [exact Hnot|]. intros n Hn. cbn in Hn.
      destruct (input n), (output n); [|by right|by left|by left].
      destruct Hn. split; by eexists.
    + intros Hex. destruct (layoutInput ns ins outs) as [[children es]|] eqn:E;
        [|done].
      destruct (layoutInput_is_Some ns ins outs) as [[inputs ->] [outputs ->]];
        [by eexists|].
      destruct Hex as [?|[?|Hex]]; [done|done|].
      apply layoutInput_inv in E as [Hall _].
      apply Exists_exists in Hex as (n & Hn & Hbad).
      rewrite Forall_forall in Hall. destruct (Hall n Hn) as [[? Hi] [? Ho]].
      destruct Hbad; congruence.
  - intros children es E.
    destruct (layoutInput_is_Some ns ins outs) as [[inputs ->] [outputs ->]];
      [by eexists|].
    apply layoutInput_inv in E as (Hall & -> & ->).
    exists inputs, outputs. split; [done|]. split; [done|].
    split; [apply child_ids|]. split.
    + rewrite !length_app, !length_fmap. lia.
    + rewrite length_app. f_equal.
      * apply length_node_edges.
      * apply length_output_edges.
Qed.

Lemma layout_input_throws_iff_witness :
  ∃ children es,
    layoutInput demoNodes (Some [Some "input_tensor"]) (Some [Some "output_tensor"])
    = Some (children, es) ∧
    length children = 1 + 4 + 1 ∧
    length es = length (consumed demoNodes) + 1.
Proof.
  eexists _, _. split; [reflexivity|].
  destruct (proj2 (layout_input_throws_iff demoNodes
                     (Some [Some "input_tensor"])
                     (Some [Some "output_tensor"])) _ _ eq_refl)
    as (inputs & outputs & Hi & Ho & _ & H1 & H2).
  injection Hi as <-. injection Ho as <-.
  split; [exact H1|exact H2].
Defined.

(** X7.  Every edge handed to the layout has one source and one target, and its
    target is the id of a child.  The sources, unlike those of the React
    Flow graph, need not be: the source of an edge is no child exactly
    when it is a consumed tensor that is neither a declared input, nor a
    declared output, nor the first output of a node. *)
Theorem layout_edge_endpoints
    (ns : list RawNode) (ins outs : list (option string))
    (children : list ElkNode) (es : list ElkEdge) :
  layoutInput ns (Some ins) (Some outs) = Some (children, es) →
  (∀ e, e ∈ es →
     ∃ s t, ke_sources e = [s] ∧ ke_targets e = [t] ∧
            t ∈ k_id <$> children) ∧
  (∀ s, (∃ e, e ∈ es ∧ ke_sources e = [s] ∧ s ∉ k_id <$> children)
        ↔ ∃ t, s = Some t ∧ t ∈ consumed ns ∧
               (Some t ∉ ins) ∧ (Some t ∉ outs) ∧
               ∀ n, n ∈ ns → JS.first (output n) ≠ Some t).
Proof.
  intros (Hall & -> & ->)%layoutInput_inv. rewrite child_ids.
  assert (∀ n, n ∈ ns → JS.first (output n) ∈ JS.first ∘ output <$> ns) as Hop.
  { intros n Hn. by apply (list_elem_of_fmap_2 (JS.first ∘ output)). }
  assert (∀ s, s ∈ ins ++ (JS.first ∘ output <$> ns) ++ outs
               ↔ s ∈ ins ∨ (∃ n, n ∈ ns ∧ JS.first (output n) = s) ∨ s ∈ outs)
    as Hids.
  { intros s. rewrite !elem_of_app, list_elem_of_fmap. split.
    - intros [?|[(n & -> & Hn)|?]]; eauto.
    - intros [?|[(n & Hn & <-)|?]]; eauto. }
  split.
  - intros e [He|He]%elem_of_app.
    + apply elem_of_node_edges in He as (n & t & Hn & Ht & ->).
      eexists _, _. split; [done|]. split; [done|]. apply Hids. eauto.
    + apply elem_of_output_edges in He as (o & p & Ho & Hp & ->).
      eexists _, _. split; [done|]. split; [done|]. apply Hids. eauto.
  - intros s. split.
    + intros (e & He & Hs & Hnot). rewrite Hids in Hnot.
      apply elem_of_app in He as [He|He].
      * apply elem_of_node_edges in He as (n & t & Hn & Ht & ->).
        injection Hs as <-. exists t. split; [done|].
        split; [apply consumed_elem; eauto|].
        split; [tauto|]. split; [tauto|].
        intros m Hm Heq. apply Hnot. eauto.
      * apply elem_of_output_edges in He as (o & p & Ho & Hp & ->).
        injection Hs as <-. destruct Hnot. right. left.
        apply producerOf_Some in Hp as [Hp _]. eauto.
    + intros (t & -> & (n & Ht & Hn)%consumed_elem & Hi & Ho & Hfirst).
      eexists. split; [apply elem_of_app; left; apply elem_of_node_edges; eauto|].
      split; [done|]. rewrite Hids. intros [?|[(m & Hm & Heq)|?]]; [done| |done].
      by apply (Hfirst m).
Qed.

Lemma layout_edge_endpoints_witness :
  ∃ children es,
    layoutInput demoNodes (Some [Some "input_tensor"]) (Some [Some "output_tensor"])
    = Some (children, es) ∧
    ∃ e, e ∈ es ∧ ke_sources e = [Some "conv_weight"] ∧
         Some "conv_weight" ∉ k_id <$> children.
Proof.
  eexists _, _. split; [reflexivity|].
  apply (proj2 (layout_edge_endpoints demoNodes [Some "input_tensor"]
                  [Some "output_tensor"] _ _ eq_refl)).
  exists "conv_weight". split; [reflexivity|].
  split; [apply list_elem_of_further, list_elem_of_here|].
  split; [by intros ?%list_elem_of_singleton|].
  split; [by intros ?%list_elem_of_singleton|].
  intros n Hn. repeat (apply elem_of_cons in Hn as [->|Hn]); try done.
  by apply elem_of_nil in Hn.
Defined.

(** X8.  A declared output that is the first output of the node producing it
    (the usual case) appears twice among the children, once as the
    operator and once as the output, both under the tensor name as id, and
    the edge drawn for it leads from that id to itself. *)
Theorem declared_output_shares_id
    (ns : list RawNode) (ins outs : list (option string))
    (children : list ElkNode) (es : list ElkEdge) (p : RawNode) (t : string) :
  layoutInput ns (Some ins) (Some outs) = Some (children, es) →
  producerOf ns (Some t) = Some p →
  JS.first (output p) = Some t →
  Some t ∈ outs →
  {| ke_id := t +:+ "->" +:+ t;
     ke_sources := [Some t]; ke_targets := [Some t] |} ∈ es ∧
  ∃ a b ca cb,
    a < b ∧ children !! a = Some ca ∧ children !! b = Some cb ∧
    k_id ca = Some t ∧ k_id cb = Some t ∧
    k_nodeType ca = opType p ∧ k_nodeType cb = Some "Output".
Proof.
  intros (Hall & -> & ->)%layoutInput_inv Hp Hfirst Hout. split.
  - apply elem_of_app. right. apply elem_of_output_edges.
    exists (Some t), p. by rewrite Hfirst.
  - apply producerOf_Some in Hp as [Hp _].
    apply list_elem_of_lookup_1 in Hp as [i Hi].
    apply list_elem_of_lookup_1 in Hout as [j Hj].
    exists (length ins + i), (length ins + length ns + j),
      (elkChildOf p), (elkOutputNode (Some t)).
    split; [apply lookup_lt_Some in Hi; lia|].
    split.
    { rewrite lookup_app_r by (rewrite length_fmap; lia).
      rewrite length_fmap, Nat.add_comm, Nat.add_sub.
      apply lookup_app_l_Some. by rewrite list_lookup_fmap, Hi. }
    split.
    { rewrite lookup_app_r by (rewrite length_fmap; lia).
      rewrite lookup_app_r by (rewrite !length_fmap; lia).
      rewrite !length_fmap.
      replace (length ins + length ns + j - length ins - length ns) with j by lia.
      by rewrite list_lookup_fmap, Hj. }
    done.
Qed.

Lemma declared_output_shares_id_witness :
  ∃ children es,
    layoutInput demoNodes (Some [Some "input_tensor"]) (Some [Some "output_tensor"])
    = Some (children, es) ∧
    producerOf demoNodes (Some "output_tensor") = Some demoLinear ∧
    {| ke_id := "output_tensor->output_tensor";
       ke_sources := [Some "output_tensor"];
       ke_targets := [Some "output_tensor"] |} ∈ es.
Proof.
  eexists _, _. split; [reflexivity|]. split; [reflexivity|].
  exact (proj1 (declared_output_shares_id demoNodes [Some "input_tensor"]
                  [Some "output_tensor"] _ _ demoLinear "output_tensor"
                  eq_refl eq_refl eq_refl
                  ltac:(apply list_elem_of_here))).
Defined.

(** ** The text of the nodes *)

Lemma attrText_nonempty n key : attrText n key ≠ "".
Proof.
  unfold attrText. destruct (findAttr _ key) as [[nm [[|z zs]|]]|]; try done.
  change (JS.join times_sign (pretty z :: (pretty <$> zs)) ≠ "").
  apply join_nonempty, pretty_Z_nonempty.
Qed.

Lemma inputText_cases n word letter :
  JS.includes word "" = false →
  (inputText n word letter ∈ inputsOf n ∧
   JS.includes word (inputText n word letter) = true ∧
   inputText n word letter ≠ "") ∨
  (inputText n word letter = letter ∧
   ∀ t, t ∈ inputsOf n → JS.includes word t = false).
Proof.
  intros H0. unfold inputText.
  destruct (List.find (JS.includes word) (inputsOf n)) as [t|] eqn:E.
  - left. apply find_some in E as [Hin E].
    split; [by apply list_elem_of_In|]. split; [done|].
    by eapply includes_nonempty.
  - right. split; [done|]. intros t Ht.
    apply (find_none _ _ E). by apply list_elem_of_In.
Qed.

(** X9.  The detail lines of a convolution are always the same six keys in the
    same order, each followed by a value that is never empty: the weight
    and bias values are inputs of the node whose names contain the word,
    or the letters [W] and [B] when the node has no such input. *)
Theorem conv_details_never_empty (n : RawNode) :
  ∃ w b d k p s,
    getConvDetails n
    = [ "Weight: " +:+ w; "Bias: " +:+ b; "Dilations: " +:+ d;
        "Kernel: " +:+ k; "Padding: " +:+ p; "Strides: " +:+ s ] ∧
    w ≠ "" ∧ b ≠ "" ∧ d ≠ "" ∧ k ≠ "" ∧ p ≠ "" ∧ s ≠ "" ∧
    ((w ∈ inputsOf n ∧ JS.includes "weight" w = true) ∨
     (w = "W" ∧ ∀ t, t ∈ inputsOf n → JS.includes "weight" t = false)) ∧
    ((b ∈ inputsOf n ∧ JS.includes "bias" b = true) ∨
     (b = "B" ∧ ∀ t, t ∈ inputsOf n → JS.includes "bias" t = false)).
Proof.
  exists (inputText n "weight" "W"), (inputText n "bias" "B"),
    (attrText n "dilations"), (attrText n "kernel_shape"),
    (attrText n "pads"), (attrText n "strides").
  split.
  { unfold getConvDetails.
    by rewrite !getAttrValue_attrText, !findInput_inputText by done. }
  destruct (inputText_cases n "weight" "W" eq_refl) as [(Hw1 & Hw2 & Hw3)|[Hw1 Hw2]],
    (inputText_cases n "bias" "B" eq_refl) as [(Hb1 & Hb2 & Hb3)|[Hb1 Hb2]];
    (split; [first [done|by rewrite Hw1]|]);
    (split; [first [done|by rewrite Hb1]|]);
    do 4 (split; [apply attrText_nonempty|]);
    (split; [by left + by right|by left + by right]).
Qed.

(** X10.  Every line of a child handed to the layout lies within the
    height the child is given, except the last line of a convolution: it
    starts at 123 and ends at 135, and the box of an operator is 120
    high. *)
Theorem conv_lines_overflow (n : RawNode) (e : ElkNode) :
  elkOperatorNode n = Some e →
  k_height e = 120 ∧
  (opType n = Some "Conv" →
     length (k_labels e) = 7 ∧
     labelY 6 = 123 ∧ labelY 6 + labelFontSize 6 = 135 ∧
     ¬ lineFits (k_height e) 6 ∧
     ∀ i, i < 6 → lineFits (k_height e) i) ∧
  (opType n ≠ Some "Conv" →
     length (k_labels e) = 1 ∧
     ∀ i, i < length (k_labels e) → lineFits (k_height e) i) ∧
  (∀ name i, i < length (k_labels (elkInputNode name)) →
     lineFits (k_height (elkInputNode name)) i) ∧
  (∀ name i, i < length (k_labels (elkOutputNode name)) →
     lineFits (k_height (elkOutputNode name)) i).
Proof.
  unfold elkOperatorNode. destruct (output n) as [outs|]; [|done].
  simpl. intros [= <-]. cbn [k_height k_labels].
  split; [done|]. split; [|split; [|split]].
  - intros H. rewrite (conv_lines n H). do 3 (split; [done|]).
    unfold lineFits, labelY, labelFontSize, NODE_HEIGHT. split.
    + simpl. lia.
    + intros i Hi. destruct (Nat.eqb_spec i 0); lia.
  - intros H. unfold nodeLines. rewrite bool_decide_eq_false_2 by done.
    split; [done|]. intros i Hi. simpl in Hi.
    assert (i = 0) as -> by lia.
    unfold lineFits, labelY, labelFontSize, NODE_HEIGHT. simpl. lia.
  - intros name i Hi. simpl in Hi. assert (i = 0) as -> by lia.
    unfold lineFits, labelY, labelFontSize, INPUT_NODE_HEIGHT. simpl. lia.
  - intros name i Hi. simpl in Hi. assert (i = 0) as -> by lia.
    unfold lineFits, labelY, labelFontSize, OUTPUT_NODE_HEIGHT. simpl. lia.
Qed.

Lemma conv_lines_overflow_witness :
  ∃ e, elkOperatorNode demoConv = Some e ∧
       length (k_labels e) = 7 ∧ ¬ lineFits (k_height e) 6.
Proof.
  eexists. split; [reflexivity|].
  destruct (conv_lines_overflow demoConv _ eq_refl) as (_ & H & _).
  destruct (H eq_refl) as (H1 & _ & _ & H2 & _).
  split; [exact H1|exact H2].
Defined.

(** ** The outcomes of the parser *)

Section ParserOutcomes.

Context {Root MsgType Message T : Type}.
Variable protobuf_load : Completion Root.
Variable lookupType : Root → Completion MsgType.
Variable arrayBuffer : File → Completion (list Byte.byte).
Variable decode : MsgType → list Byte.byte → Completion Message.
Variable toObject : MsgType → Message → Completion (ModelObject T).
Variable nullReadMessage : string.

Local Abbreviation parse :=
  (parseONNXModelComplete protobuf_load lookupType arrayBuffer decode
     toObject nullReadMessage).

(** X11.  The parser answers with the success object exactly when the schema
    loads, the type is found, the file is read, the buffer decodes and
    converts, and the decoded model has a [graph]. *)
Theorem parser_succeeds_iff (file : File) :
  parsingMethod (parse file) = "runtime-load"
  ↔ ∃ root ty bytes decoded model,
      protobuf_load = Normal root ∧ lookupType root = Normal ty ∧
      arrayBuffer file = Normal bytes ∧ decode ty bytes = Normal decoded ∧
      toObject ty decoded = Normal model ∧ is_Some (graph model).
Proof.
  unfold parseONNXModelComplete, parseBody, readGraph.
  destruct protobuf_load as [root|e] eqn:E1; simpl.
  2:{ split; [done|]. by intros (? & ? & ? & ? & ? & ? & _). }
  destruct (lookupType root) as [ty|e] eqn:E2; simpl.
  2:{ split; [done|]. intros (? & ? & ? & ? & ? & [= <-] & ? & _). congruence. }
  destruct (arrayBuffer file) as [bytes|e] eqn:E3; simpl.
  2:{ split; [done|]. by intros (? & ? & ? & ? & ? & _ & _ & ? & _). }
  destruct (decode ty bytes) as [decoded|e] eqn:E4; simpl.
  2:{ split; [done|].
      intros (? & ? & ? & ? & ? & [= <-] & ? & [= <-] & ? & _). congruence. }
  destruct (toObject ty decoded) as [model|e] eqn:E5; simpl.
  2:{ split; [done|].
      intros (? & ? & ? & ? & ? & [= <-] & ? & [= <-] & ? & ? & _). congruence. }
  destruct (graph model) as [g|] eqn:E6; simpl.
  - split; [|done]. intros _. exists root, ty, bytes, decoded, model.
    rewrite E6. eauto 10.
  - split; [done|].
    intros (? & ? & ? & ? & ? & [= <-] & ? & [= <-] & ? & ? & [? Hg]).
    congruence.
Qed.

(** One step of the [try] block: it throws, or it hands a value on. *)
Lemma first_throw {A} (c : Completion A) (L : Prop) (m : string) (K : A → Prop) :
  (∀ e, c = Throw e → (L ↔ m = message e)) →
  (∀ a, c = Normal a → (L ↔ K a)) →
  (L ↔ (∃ e, c = Throw e ∧ m = message e) ∨ (∃ a, c = Normal a ∧ K a)).
Proof.
  intros Ht Hn. destruct c as [a|e].
  - rewrite (Hn a eq_refl). split; [eauto|].
    intros [(e & He & _)|(b & [= <-] & Hb)]; done.
  - rewrite (Ht e eq_refl). split; [eauto|].
    intros [(e' & [= <-] & He)|(a & Ha & _)]; done.
Qed.

Ltac thrown :=
  let e := fresh "e" in let He := fresh "He" in
  intros e He; rewrite He; simpl; split; [intros [= <-]|intros ->]; done.

(** X12.  When the parser answers with the failure object, its [error] is the
    message of the first step that threw: the schema loader, the type
    lookup, the reading of the file, the decoder, the conversion, or the
    read on the missing [graph]. *)
Theorem parser_failure_message (file : File) (m : string) :
  parse file = Failed m
  ↔ (∃ e, protobuf_load = Throw e ∧ m = message e) ∨
    (∃ root, protobuf_load = Normal root ∧
      ((∃ e, lookupType root = Throw e ∧ m = message e) ∨
       (∃ ty, lookupType root = Normal ty ∧
         ((∃ e, arrayBuffer file = Throw e ∧ m = message e) ∨
          (∃ bytes, arrayBuffer file = Normal bytes ∧
            ((∃ e, decode ty bytes = Throw e ∧ m = message e) ∨
             (∃ decoded, decode ty bytes = Normal decoded ∧
               ((∃ e, toObject ty decoded = Throw e ∧ m = message e) ∨
                (∃ model, toObject ty decoded = Normal model ∧
                          graph model = None ∧ m = nullReadMessage))))))))).
Proof.
  unfold parseONNXModelComplete, parseBody, readGraph.
  apply first_throw; [by thrown|intros root Hroot; rewrite Hroot; simpl].
  apply first_throw; [by thrown|intros ty Hty; rewrite Hty; simpl].
  apply first_throw; [by thrown|intros bytes Hbytes; rewrite Hbytes; simpl].
  apply first_throw; [by thrown|intros decoded Hdec; rewrite Hdec; simpl].
  apply first_throw; [by thrown|intros model Hmodel; rewrite Hmodel; simpl].
  destruct (graph model) as [g|]; simpl; split.
  - done.
  - by intros [? _].
  - by intros [= <-].
  - by intros [_ ->].
Qed.

End ParserOutcomes.

(** ** Bounds on the frequency table *)

Lemma foldl_countOp_size freq ns :
  size (foldl countOp freq ns) ≤ size freq + length ns.
Proof.
  revert freq. induction ns as [|n ns IH]; intros freq; [simpl; lia|].
  simpl. etrans; [apply IH|].
  unfold countOp. destruct (JS.truthy (opType n)); [|lia].
  destruct (bool_decide _); [lia|].
  destruct (freq !! _) as [[k|k]|] eqn:E; [| |destruct (bool_decide _)];
    rewrite map_size_insert, E; simpl; lia.
Qed.

(** What the table has an entry for. *)
Lemma frequencyOf_is_Some ns op :
  is_Some (frequencyOf ns !! op)
  ↔ op ≠ "" ∧ op ≠ "__proto__" ∧ ∃ n, n ∈ ns ∧ opType n = Some op.
Proof.
  rewrite frequencyOf_lookup, <- occurrences_pos. unfold entryOf.
  destruct (decide _) as [H|H].
  - split; [by intros [? ?]|]. intros (? & ? & ?). destruct H as [?|[?|?]];
      [done|done|lia].
  - split.
    + intros _. split; [tauto|]. split; [tauto|]. lia.
    + intros _. destruct (decide _); by eexists.
Qed.

Lemma frequency_table_empty ns :
  frequencyOf ns = ∅
  ↔ ∀ n, n ∈ ns → ¬ present (opType n) ∨ opType n = Some "__proto__".
Proof.
  split.
  - intros Hemp n Hn.
    destruct (opType n) as [op|] eqn:Hop; [|left; by intros (? & ? & _)].
    destruct (decide (op = "")) as [->|Hne].
    { left. by intros (s & [= <-] & ?). }
    destruct (decide (op = "__proto__")) as [->|Hproto]; [by right|].
    assert (is_Some (frequencyOf ns !! op)) as [v Hv].
    { apply frequencyOf_is_Some. eauto. }
    by rewrite Hemp, lookup_empty in Hv.
  - intros Hall. apply map_empty. intros op.
    apply eq_None_not_Some. rewrite frequencyOf_is_Some.
    intros (Hne & Hproto & n & Hn & Hop).
    destruct (Hall n Hn) as [Hnot|Heq]; [|congruence].
    apply Hnot. by exists op.
Qed.

(** X13.  Every entry of the frequency table stands for an operator type that
    some node carries, other than the empty one and [__proto__].  It is
    the number of the nodes that carry the type, at least 1 and at most
    the number of nodes, unless the type is the name of a function of
    [Object.prototype], for which it is a string.  The numbers add up to
    the number of nodes with a plain operator type, so to at most
    [totalNodes]; the table has at most as many entries as there are
    nodes, and it is empty exactly when every node has no operator type
    or the type [__proto__]. *)
Theorem frequency_bounds (ns : list RawNode) :
  (∀ op v, frequencyOf ns !! op = Some v →
     op ≠ "" ∧ op ≠ "__proto__" ∧
     1 ≤ occurrences op ns ≤ length ns ∧
     (∃ n, n ∈ ns ∧ opType n = Some op) ∧
     v = (if decide (op ∈ prototypeFunctions)
          then NativeText (occurrences op ns)
          else Count (occurrences op ns))) ∧
  (∀ op, is_Some (frequencyOf ns !! op)
         ↔ op ≠ "" ∧ op ≠ "__proto__" ∧ ∃ n, n ∈ ns ∧ opType n = Some op) ∧
  sumValues (frequencyOf ns) = length (countedNodes ns) ∧
  sumValues (frequencyOf ns) ≤ length ns ∧
  size (frequencyOf ns) ≤ length ns ∧
  (frequencyOf ns = ∅
   ↔ ∀ n, n ∈ ns → ¬ present (opType n) ∨ opType n = Some "__proto__").
Proof.
  split; [|split; [|split; [|split; [|split]]]].
  - intros op v Hv.
    assert (is_Some (frequencyOf ns !! op)) as Hsome by (by eexists).
    apply frequencyOf_is_Some in Hsome as (Hne & Hproto & Hex).
    assert (0 < occurrences op ns) as Hpos by (by apply occurrences_pos).
    do 2 (split; [done|]). split.
    { split; [lia|apply length_filter]. }
    split; [done|]. rewrite frequencyOf_lookup in Hv. unfold entryOf in Hv.
    rewrite decide_False in Hv by (intros [?|[?|?]]; [done|done|lia]).
    destruct (decide (op ∈ prototypeFunctions)); by injection Hv as <-.
  - apply frequencyOf_is_Some.
  - apply frequencyOf_sum.
  - rewrite frequencyOf_sum. apply length_filter.
  - pose proof (foldl_countOp_size ∅ ns) as H.
    rewrite map_size_empty in H. exact H.
  - apply frequency_table_empty.
Qed.

(** ** The application around the parser *)

Lemma lengthOr0_ports (arr : option (list ValueInfo)) :
  lengthOr0 arr = length (portsOf arr).
Proof. destruct arr as [l|]; simpl; [by rewrite length_fmap|done]. Qed.

Lemma lengthOr0_default {A} (arr : option (list A)) :
  lengthOr0 arr = length (default [] arr).
Proof. by destruct arr. Qed.

Section Application.

Context {Root MsgType Message T : Type}.
Variable protobuf_load : Completion Root.
Variable lookupType : Root → Completion MsgType.
Variable arrayBuffer : File → Completion (list Byte.byte).
Variable decode : MsgType → list Byte.byte → Completion Message.
Variable toObject : MsgType → Message → Completion (ModelObject T).
Variable nullReadMessage : string.

Local Abbreviation parse :=
  (parseONNXModelComplete protobuf_load lookupType arrayBuffer decode
     toObject nullReadMessage).

(** The parser as the application awaits it: it catches whatever is
    thrown, so its promise always resolves. *)
Local Abbreviation awaited := (λ file, Normal (parse file)).

(** X14.  An upload never ends in the error state of the application: whatever
    the file and the state before, the handler ends with [isLoading]
    false, [error] null and the answer of the parser as [modelData], also
    when that answer is the failure object; and then the viewer, which
    reads [modelData.graph.nodes], throws while it renders.  Only a parser
    that rejects would bring up the error message and keep the old
    model. *)
Theorem upload_never_reports_error (file : File) (st : AppState T) :
  let st' := handleFileUpload awaited file st in
  s_error st' = None ∧
  s_isLoading st' = false ∧
  s_modelData st' = Some (parse file) ∧
  (∀ st2, handleFileUpload awaited file st2 = st') ∧
  (∀ msg, parsingMethod (parse file) = "fallback" →
     renderViewer msg (s_modelData st') = Throw {| message := msg |} ∧
     viewerGraph (viewerNodes (s_modelData st')) = sampleGraph) ∧
  (∀ (rejecting : File → Completion (ParseResult T)) e,
     rejecting file = Throw e →
     handleFileUpload rejecting file st
     = {| s_modelData := s_modelData st; s_isLoading := false;
          s_error := Some uploadFailedMessage |}).
Proof.
  cbv zeta. unfold handleFileUpload, uploadStarted. cbn.
  split; [done|]. split; [done|]. split; [done|]. split; [done|]. split.
  - intros msg H. destruct (parse file); [done|]. done.
  - intros rejecting e ->. done.
Qed.

(** X15.  For a file that parses, the numbers of the Graph Summary panel are
    the four totals of the analysis, the graph drawn has one operator
    node for each of the [totalNodes] nodes, and the frequency panel
    shows the table of the analysis, or that there is no data exactly
    when every node has no operator type or the type [__proto__]. *)
Theorem summary_matches_analysis
    (msg : string) (file : File) f p ins outs ns inits a :
  parse file = Parsed f p ins outs ns inits a →
  ∃ frequency,
    renderViewer msg (Some (parse file))
    = Normal (Panels
        {| sm_nodes := totalNodes a; sm_inputs := totalInputs a;
           sm_outputs := totalOutputs a;
           sm_initializers := totalInitializers a |}
        frequency (buildGraph ns)) ∧
    length (nodesOfKind KDefault (g_nodes (buildGraph ns))) = totalNodes a ∧
    (frequency = None
     ↔ ∀ n, n ∈ ns → ¬ present (opType n) ∨ opType n = Some "__proto__") ∧
    (∀ m, frequency = Some m →
       m = operatorFrequency a ∧
       ∀ op, m !! op = entryOf op (occurrences op ns)).
Proof.
  intros H. rewrite H.
  apply parsed_inv in H as (model & g & Hg & Hns & -> & -> & -> & ->).
  unfold renderViewer, viewerFrequency, viewerNodes, viewerGraph.
  cbn [operatorFrequency totalNodes totalInputs totalOutputs totalInitializers].
  eexists. split.
  { by rewrite <- !lengthOr0_ports, <- lengthOr0_default. }
  split; [by rewrite operator_nodes, length_imap|].
  destruct (frequency_table_empty ns) as [He1 He2].
  destruct (decide (0 < size (frequencyOf ns))) as [Hpos|Hzero].
  - split.
    + split; [done|]. intros Hall.
      rewrite (He2 Hall), map_size_empty in Hpos. lia.
    + intros m [= <-]. split; [done|]. apply frequencyOf_lookup.
  - split; [|done]. split; [|done]. intros _. apply He1.
    apply map_size_empty_iff. lia.
Qed.

End Application.

Lemma summary_matches_analysis_witness :
  ∃ f p ins outs ns inits a frequency,
    parseDecoded largeModel someFile = Parsed f p ins outs ns inits a ∧
    renderViewer "" (Some (parseDecoded largeModel someFile))
    = Normal (Panels
        {| sm_nodes := totalNodes a; sm_inputs := totalInputs a;
           sm_outputs := totalOutputs a;
           sm_initializers := totalInitializers a |}
        frequency (buildGraph ns)).
Proof.
  eexists _, _, _, _, _, _, _.
  destruct (summary_matches_analysis
              (Normal ()) (λ _, Normal ()) (λ _, Normal []) (λ _ _, Normal ())
              (λ _ _, Normal largeModel) engineMessage "" someFile
              _ _ _ _ _ _ _ eq_refl) as (frequency & H & _).
  exists frequency. split; [reflexivity|exact H].
Defined.
